(** * The Wazzup relay: outbound queue, queue worker, webhook route

    A shallow embedding of
    - [src/mastra/processors/wazzup-message-queue-service.ts] (module [Queue]),
    - [src/mastra/processors/wazzup-queue-worker.ts] (module [Worker]),
    - the stop-flag store and the lazy connection both services share
      (modules [StopFlag] and [Connect]),
    - the webhook route (module [Route]),
    followed by the properties of the specification, one theorem per claim.

    Conventions.  An optional field [f?: T] is an [option T]; a JavaScript
    number that counts or stamps (attempt, timestamp) is a [Z]; an [async]
    method is a state transformer that also returns its value; whatever the
    environment decides (the clock, the answer of the send API, the answer
    of the agent) is an argument of the function that observes it.  The log
    is part of the state, so that "logged" is a statement about it. *)

From Stdlib Require Import Ascii String ZArith Lia.
From stdpp Require Import base strings list gmap.

Open Scope string_scope.
Open Scope Z_scope.
Open Scope list_scope.

(** ** JavaScript helpers *)

Module JS.

(** Truthiness of an optional string: [undefined] and [""] are falsy. *)
Definition truthy (s : option string) : bool :=
  match s with
  | Some x => negb (String.eqb x "")
  | None => false
  end.

(** [x ?? d] *)
Definition nullish {A} (x : option A) (d : A) : A :=
  match x with
  | Some a => a
  | None => d
  end.

(** [xs.includes(x)] on an array of strings ([===] on strings). *)
Definition includes (xs : list string) (x : string) : bool :=
  existsb (String.eqb x) xs.

(** White space removed by [String.prototype.trim], on the ASCII range:
    TAB, LF, VT, FF, CR and SPACE.  Texts are byte strings here; the
    white space outside ASCII that [trim] also removes is not decoded. *)
Definition is_space (c : ascii) : bool :=
  let n := nat_of_ascii c in
  ((9 <=? n)%nat && (n <=? 13)%nat) || (n =? 32)%nat.

Fixpoint trimStart (s : string) : string :=
  match s with
  | String c rest => if is_space c then trimStart rest else s
  | EmptyString => EmptyString
  end.

(** Drops the trailing white space: a space is kept only when something
    that survives follows it. *)
Fixpoint trimEnd (s : string) : string :=
  match s with
  | String c rest =>
      match trimEnd rest with
      | EmptyString => if is_space c then EmptyString else String c EmptyString
      | kept => String c kept
      end
  | EmptyString => EmptyString
  end.

Definition trim (s : string) : string := trimEnd (trimStart s).

(** [toLowerCase] on the ASCII range: A-Z to a-z, the rest unchanged. *)
Definition lower (c : ascii) : ascii :=
  let n := nat_of_ascii c in
  if ((65 <=? n)%nat && (n <=? 90)%nat) then ascii_of_nat (n + 32) else c.

(** [s.replace(/\s+/g, '-')]: every run of white space becomes one dash;
    [inRun] tells that the previous character was white space. *)
Fixpoint replaceSpacesFrom (inRun : bool) (s : string) : string :=
  match s with
  | String c rest =>
      if is_space c then
        if inRun then replaceSpacesFrom true rest
        else String "-" (replaceSpacesFrom true rest)
      else String c (replaceSpacesFrom false rest)
  | EmptyString => EmptyString
  end.

Definition replaceSpaces (s : string) : string := replaceSpacesFrom false s.

(** [o === s] for an optional string [o]. *)
Definition equals (o : option string) (s : string) : bool :=
  match o with
  | Some x => String.eqb x s
  | None => false
  end.

(** [xs.includes(o)] for an optional string: an array of strings holds
    no [undefined]. *)
Definition includesOption (xs : list string) (o : option string) : bool :=
  match o with
  | Some x => includes xs x
  | None => false
  end.

(** [typeof o === 'string' ? o.trim() : ''] *)
Definition trimmedOrEmpty (o : option string) : string :=
  match o with
  | Some x => trim x
  | None => ""
  end.

Definition nonEmpty (s : string) : bool := negb (String.eqb s "").

(** [s.split(sep)] for a separator of one character. *)
Fixpoint split (sep : ascii) (s : string) : list string :=
  match s with
  | EmptyString => [EmptyString]
  | String c rest =>
      if Ascii.eqb c sep then EmptyString :: split sep rest
      else
        match split sep rest with
        | piece :: pieces => String c piece :: pieces
        | [] => [String c EmptyString]
        end
  end.

(** [xs.join(sep)] *)
Fixpoint join (sep : string) (xs : list string) : string :=
  match xs with
  | [] => ""
  | [x] => x
  | x :: rest => x +:+ sep +:+ join sep rest
  end.

Definition newline : string := String (ascii_of_nat 10) EmptyString.

Fixpoint toLowerCase (s : string) : string :=
  match s with
  | String c rest => String (lower c) (toLowerCase rest)
  | EmptyString => EmptyString
  end.



End JS.

(** ** Logging

    Both services and the route log through [log(level, message, meta)].
    An entry keeps the level and the message; the [meta] object is omitted. *)

Inductive Level := info | warn | error | debug.

Definition Log := list (Level * string).

(** ** Async functions

    An [async] function over a state [S]: a state transformer with a
    result.  [x <- m ;; k] is [const x = await m; k]. *)

Definition Async (S A : Type) : Type := S -> A * S.

Definition ret {S A} (a : A) : Async S A := fun st => (a, st).

Definition bind {S A B} (m : Async S A) (k : A -> Async S B) : Async S B :=
  fun st => let (a, st') := m st in k a st'.

Declare Scope async_scope.
Delimit Scope async_scope with async.
Notation "x <- m ;; k" := (bind m (fun x => k))
  (at level 100, m at next level, right associativity) : async_scope.
Notation "m ;; k" := (bind m (fun _ => k))
  (at level 100, right associativity) : async_scope.
Open Scope async_scope.

(** ** The outbound queue: wazzup-message-queue-service.ts *)

Module Queue.

Record WazzupOutboundMessage := mkMessage {
  channelId : string;
  chatType : string;
  chatId : string;
  text : string;
  refMessageId : option string;
  attempt : option Z;
  timestamp : option Z;
}.

(** [{ ...message, attempt: a, timestamp: t }] *)
Definition with_attempt_timestamp (message : WazzupOutboundMessage)
    (a t : option Z) : WazzupOutboundMessage :=
  {| channelId := channelId message;
     chatType := chatType message;
     chatId := chatId message;
     text := text message;
     refMessageId := refMessageId message;
     attempt := a;
     timestamp := t |}.

(** An element of a Redis list is a string.  It is kept by what
    [JSON.parse] makes of it: the text [JSON.stringify] wrote for a
    message parses back to that message, any other text makes
    [JSON.parse] throw.  (Texts that parse to something that is not a
    message are outside the model.) *)
Inductive element :=
| Json (message : WazzupOutboundMessage)
| Unparsable (raw : string).

Definition JSON_stringify (message : WazzupOutboundMessage) : element :=
  Json message.

(** [None] is the thrown [SyntaxError]. *)
Definition JSON_parse (e : element) : option WazzupOutboundMessage :=
  match e with
  | Json message => Some message
  | Unparsable _ => None
  end.

(** The Redis server as the service sees it (lists by key) and the
    service's log.  The client is connected and its commands succeed:
    [ensureClient] (module [Connect]) returns at once on an open client. *)
Record State := mkState {
  redis : gmap string (list element);
  log : Log;
}.

(** The fields the constructor sets. *)
Record WazzupMessageQueueService := mkService {
  queuePrefix : string;
  maxRetries : Z;
}.

Record WazzupMessageQueueServiceOptions := mkOptions {
  redisUrl : option string;
  queuePrefixOption : option string;
  maxRetriesOption : option Z;
}.

(** [new WazzupMessageQueueService()] and [new WazzupMessageQueueService({ logger })] *)
Definition noOptions : WazzupMessageQueueServiceOptions := mkOptions None None None.

(** The constructor.  [REDIS_URL] is [process.env.REDIS_URL], the default
    of the [redisUrl] parameter; [inl] is the thrown [Error] with its
    message. *)
Definition new (REDIS_URL : option string)
    (options : WazzupMessageQueueServiceOptions) : string + WazzupMessageQueueService :=
  let redisUrl := match redisUrl options with Some url => Some url | None => REDIS_URL end in
  if negb (JS.truthy redisUrl) then
    inl "WazzupMessageQueueService: REDIS_URL must be provided via options or env"
  else
    inr (mkService
           (JS.replaceSpaces (JS.nullish (queuePrefixOption options) "mastra:wazzup-queue"))
           (JS.nullish (maxRetriesOption options) 3)).

(** An [async] method of the service. *)
Definition M (A : Type) : Type := Async State A.

(** *** Redis list commands *)

Definition lRange (db : gmap string (list element)) (key : string) : list element :=
  default [] (db !! key).

(** RPUSH: append at the tail. *)
Definition rPush (key : string) (e : element) : M unit :=
  fun st => (tt, mkState (<[key := lRange (redis st) key ++ [e]]> (redis st)) (log st)).

(** LLEN *)
Definition lLen (key : string) : M nat :=
  fun st => (length (lRange (redis st) key), st).

(** BLPOP key timeout: pop the head.  No producer runs during the call,
    so on an empty list the wait ends with the timeout and the reply is
    [null]; the number of seconds waited is not modelled.  The timeout is
    a positive number of seconds, 1 by default in [dequeue] and in the
    worker (with 0 Redis waits without bound). *)
Definition blPop (key : string) (timeoutSeconds : Z) : M (option element) :=
  fun st =>
    match lRange (redis st) key with
    | [] => (None, st)
    | e :: rest => (Some e, mkState (<[key := rest]> (redis st)) (log st))
    end.

Definition logM (level : Level) (message : string) : M unit :=
  fun st => (tt, mkState (redis st) (log st ++ [(level, message)])).

(** *** The service *)

Definition getQueueKey (svc : WazzupMessageQueueService) : string :=
  queuePrefix svc +:+ ":main".

Definition getDeadLetterKey (svc : WazzupMessageQueueService) : string :=
  queuePrefix svc +:+ ":dead-letters".

(** The record [enqueue] writes; [now] is what [Date.now()] returns. *)
Definition payload (now : Z) (message : WazzupOutboundMessage) : WazzupOutboundMessage :=
  with_attempt_timestamp message
    (Some (JS.nullish (attempt message) 0 + 1))
    (Some (JS.nullish (timestamp message) now)).

Definition enqueue (svc : WazzupMessageQueueService) (now : Z)
    (message : WazzupOutboundMessage) : M unit :=
  let queueKey := getQueueKey svc in
  rPush queueKey (JSON_stringify (payload now message)) ;;
  _ <- lLen queueKey ;;
  logM debug "Сообщение добавлено в очередь Wazzup".

Definition dequeue (svc : WazzupMessageQueueService) (timeoutSeconds : Z)
    : M (option WazzupOutboundMessage) :=
  let queueKey := getQueueKey svc in
  result <- blPop queueKey timeoutSeconds ;;
  match result with
  | None => ret None
  | Some e =>
      match JSON_parse e with
      | Some message => ret (Some message)
      | None =>
          logM error "Не удалось распарсить сообщение из очереди" ;;
          ret None
      end
  end.

Definition retryMessage (svc : WazzupMessageQueueService) (now : Z)
    (message : WazzupOutboundMessage) : M bool :=
  if maxRetries svc <=? JS.nullish (attempt message) 0 then
    logM warn "Сообщение превышило максимум повторных попыток" ;;
    rPush (getDeadLetterKey svc) (JSON_stringify message) ;;
    ret false
  else
    enqueue svc now
      (with_attempt_timestamp message
         (Some (JS.nullish (attempt message) 0)) (timestamp message)) ;;
    logM debug "Сообщение перемещено в очередь повторных попыток" ;;
    ret true.

(** The requeueing branch of [retryMessage] hands [enqueue] the message
    with its attempt made explicit; the record written is this one. *)
Definition requeued (now : Z) (message : WazzupOutboundMessage) : WazzupOutboundMessage :=
  payload now
    (with_attempt_timestamp message (Some (JS.nullish (attempt message) 0))
       (timestamp message)).

(** The two lists of a service, as the specification names them. *)
Definition main (svc : WazzupMessageQueueService) (st : State) : list element :=
  lRange (redis st) (getQueueKey svc).

Definition deadLetters (svc : WazzupMessageQueueService) (st : State) : list element :=
  lRange (redis st) (getDeadLetterKey svc).

(** *** Diagnostics *)

Definition getStats (svc : WazzupMessageQueueService) : M (nat * nat) :=
  queueLength <- lLen (getQueueKey svc) ;;
  deadLetterLength <- lLen (getDeadLetterKey svc) ;;
  ret (queueLength, deadLetterLength).

(** LRANGE key 0 stop on the elements of a list: [stop] is the index of
    the last element wanted, counted from the end of the list when it is
    negative (-1 is the last element); an index past the end stops at the
    end, one before the start gives nothing. *)
Definition lRangeTo (es : list element) (stop : Z) : list element :=
  let last := if stop <? 0 then Z.of_nat (length es) + stop else stop in
  if last <? 0 then [] else take (Z.to_nat (last + 1)) es.

Definition lRangeM (key : string) (stop : Z) : M (list element) :=
  fun st => (lRangeTo (lRange (redis st) key) stop, st).

(** [items.map(parse or null).filter(item => item !== null)] *)
Definition getDeadLetters (svc : WazzupMessageQueueService) (count : Z)
    : M (list WazzupOutboundMessage) :=
  items <- lRangeM (getDeadLetterKey svc) (count - 1) ;;
  ret (omap JSON_parse items).

(** DEL key: the number of keys removed.  A list without elements is no
    key of the server. *)
Definition del (key : string) : M nat :=
  fun st =>
    (match lRange (redis st) key with [] => 0%nat | _ => 1%nat end,
     mkState (delete key (redis st)) (log st)).

Definition clearDeadLetters (svc : WazzupMessageQueueService) : M nat :=
  del (getDeadLetterKey svc).

(** *** Producers and consumers *)

(** A producer: [enqueue] for each message in turn, each call at its time. *)
Fixpoint enqueueAll (svc : WazzupMessageQueueService)
    (items : list (Z * WazzupOutboundMessage)) : M unit :=
  match items with
  | [] => ret tt
  | (now, message) :: rest => enqueue svc now message ;; enqueueAll svc rest
  end.

(** A consumer: [n] calls of [dequeue], with what each returned. *)
Fixpoint dequeueAll (svc : WazzupMessageQueueService) (timeoutSeconds : Z) (n : nat)
    : M (list (option WazzupOutboundMessage)) :=
  match n with
  | O => ret []
  | S k =>
      first <- dequeue svc timeoutSeconds ;;
      others <- dequeueAll svc timeoutSeconds k ;;
      ret (first :: others)
  end.

End Queue.

(** ** The queue worker: wazzup-queue-worker.ts *)

Module Worker.
Import Queue.

(** What [fetch] does with the POST to the send API: a response with
    [response.ok], a response without it, the abort of the timeout
    controller, or any other rejection. *)
Inductive Fetch :=
| Ok2xx
| NotOk (status : Z)
| AbortError
| NetworkError.

Record WazzupQueueWorker := mkWorker {
  queueService : WazzupMessageQueueService;
  pollTimeoutSeconds : Z;
}.

(** [sendToWazzup]: every failure is turned into [false]; nothing is
    thrown.  [token] is the module constant [WAZZUP_API_TOKEN]. *)
Definition sendToWazzup (token : option string) (response : Fetch)
    (message : WazzupOutboundMessage) : M bool :=
  if negb (JS.truthy token) then
    logM warn "WAZZUP_API_TOKEN is not configured; cannot send message" ;;
    ret false
  else
    match response with
    | Ok2xx => ret true
    | NotOk _ => logM error "Wazzup API вернул ошибку" ;; ret false
    | AbortError => logM error "Таймаут при отправке в Wazzup" ;; ret false
    | NetworkError => logM error "Ошибка при отправке в Wazzup" ;; ret false
    end.

(** [processMessage].  Its [catch] branch (a call of [retryMessage]) runs
    when a call of the [try] block throws; [sendToWazzup] catches what the
    send throws, and the Redis commands of [State] answer, so that branch
    has no run here. *)
Definition processMessage (w : WazzupQueueWorker) (token : option string)
    (now : Z) (response : Fetch) (message : WazzupOutboundMessage) : M unit :=
  logM info "Обработка сообщения из очереди" ;;
  success <- sendToWazzup token response message ;;
  if (success : bool) then
    logM info "Сообщение успешно отправлено в Wazzup"
  else
    shouldRetry <- retryMessage (queueService w) now message ;;
    if (shouldRetry : bool) then
      logM warn "Сообщение отправлено на повторную попытку"
    else
      logM error "Сообщение перемещено в очередь мертвых писем".

(** What the environment supplies to one turn of the loop: the clock and
    the answer of the send API, should the turn send. *)
Record Turn := mkTurn {
  now : Z;
  response : Fetch;
}.

(** The worker between two awaits of the loop body: the queue and the
    local variable [message], the record in flight. *)
Record Running := mkRunning {
  state : State;
  inFlight : option WazzupOutboundMessage;
}.

(** First half of the loop body: [message = await dequeue(...)]. *)
Definition poll (w : WazzupQueueWorker) (r : Running) : Running :=
  let (message, st) := dequeue (queueService w) (pollTimeoutSeconds w) (state r) in
  mkRunning st message.

(** Second half: [if (!message) continue; await processMessage(message)]. *)
Definition settle (w : WazzupQueueWorker) (token : option string) (t : Turn)
    (r : Running) : Running :=
  match inFlight r with
  | None => r
  | Some message =>
      let (_, st) := processMessage w token (now t) (response t) message (state r) in
      mkRunning st None
  end.

(** The constructor: [new WazzupMessageQueueService({ logger })] is not
    wrapped in a [try]; its error is the constructor's. *)
Definition new (REDIS_URL : option string) (pollTimeoutSecondsOption : option Z)
    : string + WazzupQueueWorker :=
  match Queue.new REDIS_URL noOptions with
  | inl thrown => inl thrown
  | inr service => inr (mkWorker service (JS.nullish pollTimeoutSecondsOption 1))
  end.

(** [processQueue]: [while (this.isRunning) { ... }], one turn of the
    script per pass; the script ends when [stop()] has cleared the flag.
    The [catch] of the loop body (a log entry and a pause of one second)
    runs when [dequeue] or [processMessage] throws, which they do not on
    the Redis commands of [State]. *)
Fixpoint processQueue (w : WazzupQueueWorker) (token : option string)
    (script : list Turn) (r : Running) : Running :=
  match script with
  | [] => r
  | t :: rest => processQueue w token rest (settle w token t (poll w r))
  end.


(** A send that fails: no token, or anything but a 2xx answer. *)
Definition fails (token : option string) (t : Turn) : bool :=
  match response t with
  | Ok2xx => negb (JS.truthy token)
  | _ => true
  end.

(** A logical message: the record without the two fields a retry rewrites. *)
Definition logical (message : WazzupOutboundMessage) : WazzupOutboundMessage :=
  with_attempt_timestamp message None None.

Global Instance message_eq_dec : EqDecision WazzupOutboundMessage.
Proof. solve_decision. Defined.







(** The send of a turn, when it is for a copy of [l]: [true] when it fails. *)
Definition sendOf (token : option string) (l : WazzupOutboundMessage) (t : Turn)
    (polled : Running) : list bool :=
  match inFlight polled with
  | Some message => if bool_decide (logical message = l) then [fails token t] else []
  | None => []
  end.

(** The sends of a run that are for a copy of [l], in the order of the run. *)
Fixpoint sends (w : WazzupQueueWorker) (token : option string)
    (l : WazzupOutboundMessage) (script : list Turn) (r : Running) : list bool :=
  match script with
  | [] => []
  | t :: rest =>
      sendOf token l t (poll w r) ++ sends w token l rest (settle w token t (poll w r))
  end.


(** *** What a run does to the records *)




End Worker.

(** ** The stop-flag store: redis-stop-flag-service.ts *)

Module StopFlag.

Record RedisStopFlagService := mkService {
  keyPrefix : string;
}.

Record RedisStopFlagServiceOptions := mkOptions {
  redisUrl : option string;
  keyPrefixOption : option string;
}.

Definition noOptions : RedisStopFlagServiceOptions := mkOptions None None.

(** The constructor; [inl] is the thrown [Error]. *)
Definition new (REDIS_URL : option string)
    (options : RedisStopFlagServiceOptions) : string + RedisStopFlagService :=
  let redisUrl := match redisUrl options with Some url => Some url | None => REDIS_URL end in
  if negb (JS.truthy redisUrl) then
    inl "RedisStopFlagService: REDIS_URL must be provided via options or env"
  else
    inr (mkService (JS.replaceSpaces (JS.nullish (keyPrefixOption options) "mastra:input-stop"))).

(** The string keys of the server, and what the next calls of the store
    will meet: [true] for a call that rejects (the connection or the
    command fails), nothing left for calls that succeed. *)
Record State := mkState {
  keys : gmap string string;
  rejections : list bool;
}.

Definition buildKey (svc : RedisStopFlagService) (chatId : string) : string :=
  keyPrefix svc +:+ ":" +:+ chatId.

(** One call of the store: [ensureClient] and the command [run].  The
    result is [false] when the returned promise rejects. *)
Definition call (run : gmap string string -> gmap string string) (st : State)
    : bool * State :=
  match rejections st with
  | true :: later => (false, mkState (keys st) later)
  | false :: later => (true, mkState (run (keys st)) later)
  | [] => (true, mkState (run (keys st)) [])
  end.

Definition setStop (svc : RedisStopFlagService) (chatId value : string) (st : State)
    : bool * State :=
  call (insert (buildKey svc chatId) value) st.

Definition clearStop (svc : RedisStopFlagService) (chatId : string) (st : State)
    : bool * State :=
  call (delete (buildKey svc chatId)) st.

End StopFlag.

(** ** The lazy connection: ensureClient

    [WazzupMessageQueueService.ensureClient] and
    [RedisStopFlagService.ensureClient] are the same text.  Each call runs
    to its [await] without interruption and is resumed when the awaited
    promise settles; the reactions of one promise run one after the other,
    in the order of the awaits, before any other code. *)

Module Connect.

(** A call of [ensureClient], by the operation that made it. *)
Definition Call := nat.

(** The fields [ensureClient] reads and writes, with what the redis
    client keeps: [isOpen], and the promise a pending [connect()] gave.
    The client is a library, outside the sources: it is taken to report
    [isOpen] from the moment a [connect()] has succeeded, as the guard on
    [this.connectPromise] supposes, and the runs have no [disconnect()]. *)
Record Client := mkClient {
  isOpen : bool;
  connectPromise : option nat;   (* this.connectPromise: a promise, by number *)
  pending : option nat;          (* the promise of the connect() in progress *)
  connects : nat;                (* calls of client.connect() so far *)
  awaiting : list (Call * nat);  (* calls suspended at the await, and on what *)
  returned : list Call;          (* calls whose promise resolved *)
  thrown : list Call;            (* calls whose promise rejected *)
}.

Definition fresh : Client := mkClient false None None 0 [] [] [].

(** [ensureClient()] up to its [await]: return on an open client,
    otherwise [this.connectPromise ??= this.client.connect()] and
    suspend on [this.connectPromise]. *)
Definition ensureClient (c : Client) (op : Call) : Client :=
  if isOpen c then
    mkClient (isOpen c) (connectPromise c) (pending c) (connects c)
      (awaiting c) (returned c ++ [op]) (thrown c)
  else
    match connectPromise c with
    | Some p =>
        mkClient (isOpen c) (Some p) (pending c) (connects c)
          (awaiting c ++ [(op, p)]) (returned c) (thrown c)
    | None =>
        let p := connects c in
        mkClient (isOpen c) (Some p) (Some p) (S (connects c))
          (awaiting c ++ [(op, p)]) (returned c) (thrown c)
    end.

Definition waiters (p : nat) (c : Client) : list Call :=
  map fst (List.filter (fun a => Nat.eqb (snd a) p) (awaiting c)).

Definition others (p : nat) (c : Client) : list (Call * nat) :=
  List.filter (fun a => negb (Nat.eqb (snd a) p)) (awaiting c).

(** The pending [connect()] succeeds: the client is open and every call
    suspended on its promise continues after the [await] and returns. *)
Definition connected (c : Client) : Client :=
  match pending c with
  | Some p =>
      mkClient true (connectPromise c) None (connects c)
        (others p c) (returned c ++ waiters p c) (thrown c)
  | None => c
  end.

(** The pending [connect()] fails: every call suspended on its promise
    runs its [catch], [this.connectPromise = undefined; throw error]. *)
Definition failed (c : Client) : Client :=
  match pending c with
  | Some p =>
      mkClient false
        (match waiters p c with [] => connectPromise c | _ => None end)
        None (connects c)
        (others p c) (returned c) (thrown c ++ waiters p c)
  | None => c
  end.

Inductive Event :=
| Operation (op : Call)
| Connected
| Failed.

Definition step (c : Client) (e : Event) : Client :=
  match e with
  | Operation op => ensureClient c op
  | Connected => connected c
  | Failed => failed c
  end.

Definition run (events : list Event) : Client := fold_left step events fresh.

(** What holds of the client in every run: a [connect()] in progress is
    the one [this.connectPromise] remembers, on a closed client, with a
    call suspended on it; suspended calls wait for the [connect()] in
    progress; an open client has none in progress; a closed client with
    none in progress remembers no promise. *)
Definition consistent (c : Client) : Prop :=
  (forall p, pending c = Some p ->
     connectPromise c = Some p /\ isOpen c = false
     /\ (exists op, In (op, p) (awaiting c)) /\ (p < connects c)%nat)
  /\ (forall op q, In (op, q) (awaiting c) -> pending c = Some q)
  /\ (isOpen c = true -> pending c = None)
  /\ (isOpen c = false -> pending c = None -> connectPromise c = None).

(** *** Counting over a run *)

(** The calls of [ensureClient] made in a run, in their order. *)
Fixpoint operations (events : list Event) : list Call :=
  match events with
  | [] => []
  | Operation op :: rest => op :: operations rest
  | _ :: rest => operations rest
  end.

Definition isFailed (e : Event) : bool :=
  match e with
  | Failed => true
  | _ => false
  end.

(** The run goes on from a client [c]. *)
Definition continue (c : Client) (events : list Event) : Client :=
  fold_left step events c.

(** *** After [disconnect()] *)

(** [disconnect()]: [if (this.client.isOpen) await this.client.quit()].
    The client reports [isOpen] false from the call of [quit()] on;
    [this.connectPromise] is not touched. *)
Definition disconnect (c : Client) : Client :=
  if isOpen c then
    mkClient false (connectPromise c) (pending c) (connects c)
      (awaiting c) (returned c) (thrown c)
  else c.

(** The calls suspended on a promise that is already fulfilled go on
    after their [await] and return.  With no [connect()] in progress the
    promise [this.connectPromise] holds is fulfilled: a rejected one is
    cleared by the [catch] of the calls that awaited it. *)
Definition resumed (c : Client) : Client :=
  match pending c with
  | Some _ => c
  | None =>
      mkClient (isOpen c) (connectPromise c) None (connects c)
        [] (returned c ++ map fst (awaiting c)) (thrown c)
  end.

(** The events of a service with its whole life: those of [Event], a
    call of [disconnect()], and the microtasks of fulfilled promises. *)
Inductive Life :=
| Live (e : Event)
| Disconnect
| Resume.

Definition live (c : Client) (l : Life) : Client :=
  match l with
  | Live e => step c e
  | Disconnect => disconnect c
  | Resume => resumed c
  end.

Definition calls (events : list Life) : list Call :=
  flat_map (fun l => match l with Live (Operation op) => [op] | _ => [] end) events.

End Connect.

(** ** The webhook route *)

Module Route.

(** Modelled from the spec: the declaration of [WazzupMessage] is in
    services/wazzup-webhook-service, which is not among the sources.  The
    fields are those of InboundMessage in the data model, every one
    optional, as the route reads them ([message.chatId ?? ''],
    [typeof message.text === 'string'], [message.type ?? 'text']). *)
Record WazzupMessage := mkMessage {
  messageId : option string;
  chatId : option string;
  channelId : option string;
  chatType : option string;
  type : option string;
  text : option string;
  contentUri : option string;
  status : option string;
  isEcho : option bool;
  authorName : option string;
  dateTime : option string;
}.

Record WazzupOutboundPayload := mkPayload {
  payloadChannelId : string;
  payloadChatType : string;
  payloadChatId : string;
  payloadText : string;
  payloadRefMessageId : option string;
}.

(** [resolveTargetChatIds]; the argument is [process.env.WAZZUP_TARGET_CHAT_IDS]. *)
Definition resolveTargetChatIds (fromEnv : option string) : list string :=
  if JS.truthy fromEnv && JS.nonEmpty (JS.trimmedOrEmpty fromEnv) then
    List.filter JS.nonEmpty (map JS.trim (JS.split "," (JS.nullish fromEnv "")))
  else
    ["77066318623"; "77475318623"].

Definition shouldHandleMessage (message : WazzupMessage) (allowedChatIds : list string)
    : bool :=
  if JS.nullish (isEcho message) false then false
  else if JS.truthy (status message) && negb (JS.equals (status message) "inbound") then false
  else if negb (JS.truthy (chatId message)) then false
  else if (length allowedChatIds =? 0)%nat then false
  else JS.includesOption allowedChatIds (chatId message).

(** The media service: what its two calls resolve to ([None] for [null]). *)
Record WazzupMediaService := mkMedia {
  transcribeAudioFromUrl : string -> option string;
  describeImageFromUrl : string -> option string;
}.

Definition resolveMessageText (message : WazzupMessage) (mediaService : WazzupMediaService)
    : option string :=
  let originalText := JS.trimmedOrEmpty (text message) in
  let segments := if JS.nonEmpty originalText then [originalText] else [] in
  let uri := JS.nullish (contentUri message) "" in
  let segments :=
    if JS.truthy (contentUri message) && JS.equals (type message) "audio" then
      if JS.truthy (transcribeAudioFromUrl mediaService uri) then
        segments ++ ["Транскрипция аудио клиента: "
                     +:+ JS.nullish (transcribeAudioFromUrl mediaService uri) ""]
      else segments ++ ["Клиент отправил аудио. Ссылка: " +:+ uri]
    else if JS.truthy (contentUri message) && JS.equals (type message) "image" then
      if JS.truthy (describeImageFromUrl mediaService uri) then
        segments ++ ["Описание изображения: "
                     +:+ JS.nullish (describeImageFromUrl mediaService uri) ""]
      else segments ++ ["Клиент отправил изображение. Ссылка: " +:+ uri]
    else if (length segments =? 0)%nat && JS.truthy (contentUri message) then
      let kind := JS.nullish (type message) "content" in
      segments ++ ["Клиент отправил " +:+ kind +:+ ". Ссылка: " +:+ uri]
    else segments in
  if (length segments =? 0)%nat then None
  else Some (JS.join (JS.newline +:+ JS.newline) segments).

Definition shouldPersistOutboundMessage (message : WazzupMessage) : bool :=
  if negb (JS.truthy (chatId message)) then false
  else if JS.equals (status message) "inbound" then false
  else JS.equals (status message) "sent".

Definition resolveOutboundMessageText (message : WazzupMessage) : option string :=
  let originalText := JS.trimmedOrEmpty (text message) in
  if JS.nonEmpty originalText then Some originalText
  else if JS.truthy (contentUri message) then
    let kind := JS.nullish (type message) "контент" in
    Some ("Исходящее сообщение (" +:+ kind +:+ "). Ссылка: "
          +:+ JS.nullish (contentUri message) "")
  else None.

(** *** Conversation history: the records [memory.saveMessages] takes *)

Inductive Source := agent | manager.

Record Metadata := mkMetadata {
  source : Source;
  wazzupMessageId : option string;
  wazzupChannelId : option string;
  wazzupChatType : option string;
  metaStatus : option string;
  metaIsEcho : option bool;
  metaAuthorName : option string;
  metaContentUri : option string;
}.

Record MastraMessageV2 := mkRecord {
  id : nat;
  role : string;
  threadId : string;
  resourceId : string;
  createdAt : Z;
  recordType : string;
  parts : list string;   (* the text parts of content.parts *)
  metadata : Metadata;
}.

(** The agent's memory: the identifiers [generateId] has handed out and
    the records [saveMessages] has stored. *)
Record Memory := mkMemory {
  generated : nat;
  saved : list MastraMessageV2;
}.

(** *** What [agent.generate] gives *)

Record AssistantMessagePart := mkPart {
  partType : option string;
  partText : option string;
}.

Record AssistantUiMessage := mkUiMessage {
  uiRole : option string;
  uiContent : option (list AssistantMessagePart);
}.

(** The result, with its two promises settled: [response.uiMessages]
    when it is an array, [text] when it resolves to a string. *)
Record GenerateResult := mkResult {
  uiMessages : option (list AssistantUiMessage);
  resultText : option string;
}.

(** [agent.generate] resolves, rejects with an error named AbortError,
    or rejects with another error. *)
Inductive Generate :=
| Resolved (result : GenerateResult)
| AbortError
| OtherError.

Definition partValue (part : AssistantMessagePart) : option string :=
  if negb (JS.equals (partType part) "text") then None
  else
    let value := JS.trimmedOrEmpty (partText part) in
    if JS.nonEmpty value then Some value else None.

Definition extractAssistantReplies (result : GenerateResult) : list string :=
  let replies :=
    flat_map
      (fun rawMessage =>
         if negb (JS.equals (uiRole rawMessage) "assistant") then []
         else
           let content := JS.nullish (uiContent rawMessage) [] in
           let text := JS.join JS.newline (omap partValue content) in
           if JS.nonEmpty text then [text] else [])
      (JS.nullish (uiMessages result) []) in
  if (length replies =? 0)%nat then
    if JS.nonEmpty (JS.trimmedOrEmpty (resultText result))
    then [JS.trimmedOrEmpty (resultText result)]
    else []
  else replies.


(** *** The state the route works on *)

(** The environment of one webhook delivery: configuration, the clock,
    and the answers of the collaborators. *)
Record Env := mkEnv {
  REDIS_URL : option string;
  WAZZUP_API_TOKEN : option string;
  WAZZUP_TARGET_CHAT_IDS : option string;
  USE_WAZZUP_QUEUE : bool;
  now : Z;                                    (* Date.now(), new Date() *)
  dateParse : string -> option Z;             (* new Date(s).getTime(); None for NaN *)
  mediaService : WazzupMediaService;
  generate : WazzupMessage -> string -> Generate;   (* agent.generate, by message and text *)
  fetch : WazzupOutboundPayload -> Worker.Fetch;    (* the send API, by payload *)
}.

(** The two module variables, the two stores behind them, the agent's
    memory ([None] when [agent.getMemory()] gives nothing), and what the
    route has done: calls of [agent.generate], POSTs to the send API, log. *)
Record State := mkState {
  redisStopFlagService : option StopFlag.RedisStopFlagService;
  messageQueueService : option Queue.WazzupMessageQueueService;
  stopFlags : StopFlag.State;
  queue : Queue.State;
  memory : option Memory;
  generated_for : list WazzupMessage;
  posted : list WazzupOutboundPayload;
  log : Log;
}.

Definition R (A : Type) : Type := Async State A.

Definition logR (level : Level) (message : string) : R unit :=
  fun st =>
    (tt, mkState (redisStopFlagService st) (messageQueueService st) (stopFlags st)
           (queue st) (memory st) (generated_for st) (posted st)
           (log st ++ [(level, message)])).

(** Module load: [try { redisStopFlagService = new RedisStopFlagService() }
    catch (error) { console.warn(...) }].  The value the variable gets,
    and what was written to the console. *)
Definition load (REDIS_URL : option string)
    : option StopFlag.RedisStopFlagService * Log :=
  match StopFlag.new REDIS_URL StopFlag.noOptions with
  | inr service => (Some service, [])
  | inl _ =>
      (None, [(warn, "[WazzupRoute] RedisStopFlagService init failed, stop commands disabled")])
  end.

(** *** Sending a reply *)

Definition post (payload : WazzupOutboundPayload) : R unit :=
  fun st =>
    (tt, mkState (redisStopFlagService st) (messageQueueService st) (stopFlags st)
           (queue st) (memory st) (generated_for st) (posted st ++ [payload]) (log st)).

Definition sendReplyViaHttp (env : Env) (payload : WazzupOutboundPayload) : R unit :=
  if negb (JS.truthy (WAZZUP_API_TOKEN env)) then
    logR warn "WAZZUP_API_TOKEN is not configured; skip sending reply"
  else
    logR info "Отправляем ответ в Wazzup" ;;
    post payload ;;
    match fetch env payload with
    | Worker.Ok2xx => logR info "Отправлен ответ в Wazzup"
    | Worker.NotOk _ => logR error "Failed to send Wazzup reply"
    | Worker.AbortError => logR error "Таймаут при отправке ответа в Wazzup"
    | Worker.NetworkError => logR error "Ошибка при отправке ответа в Wazzup"
    end.

(** [messageQueueService.enqueue(...)] on the queue behind the service. *)
Definition enqueueReply (service : Queue.WazzupMessageQueueService) (env : Env)
    (payload : WazzupOutboundPayload) : R unit :=
  fun st =>
    let message :=
      Queue.mkMessage (payloadChannelId payload) (payloadChatType payload)
        (payloadChatId payload) (payloadText payload) (payloadRefMessageId payload)
        None None in
    let (_, q) := Queue.enqueue service (now env) message (queue st) in
    (tt, mkState (redisStopFlagService st) (Some service) (stopFlags st)
           q (memory st) (generated_for st) (posted st) (log st)).

(** [sendReplyToWazzup].  In the [try] block the constructor is the call
    that throws here; the [catch] logs and hands the payload to
    [sendReplyViaHttp] in a microtask, which runs before the route
    continues. *)
Definition sendReplyToWazzup (env : Env) (payload : WazzupOutboundPayload) : R unit :=
  if USE_WAZZUP_QUEUE env then
    fun st =>
      let constructed :=
        match messageQueueService st with
        | Some service => inr service
        | None => Queue.new (REDIS_URL env) Queue.noOptions
        end in
      match constructed with
      | inr service =>
          (enqueueReply service env payload ;;
           logR info "Сообщение добавлено в очередь Wazzup") st
      | inl _ =>
          (logR error "Ошибка при добавлении сообщения в очередь" ;;
           sendReplyViaHttp env payload) st
      end
  else sendReplyViaHttp env payload.

Fixpoint sendReplies (env : Env) (message : WazzupMessage) (replies : list string)
    : R unit :=
  match replies with
  | [] => ret tt
  | reply :: rest =>
      sendReplyToWazzup env
        (mkPayload (JS.nullish (channelId message) "") (JS.nullish (chatType message) "")
           (JS.nullish (chatId message) "") reply None) ;;
      sendReplies env message rest
  end.

Definition called (message : WazzupMessage) : R unit :=
  fun st =>
    (tt, mkState (redisStopFlagService st) (messageQueueService st) (stopFlags st)
           (queue st) (memory st) (generated_for st ++ [message]) (posted st) (log st)).

(** The [for ... of] loop of [processInboundMessages], with [continue]
    as the recursive call and [return] as the end of the recursion. *)
Fixpoint processInboundLoop (env : Env) (allowedChatIds : list string)
    (messages : list WazzupMessage) : R unit :=
  match messages with
  | [] => ret tt
  | message :: rest =>
      if negb (shouldHandleMessage message allowedChatIds) then
        processInboundLoop env allowedChatIds rest
      else if negb (JS.truthy (chatId message)) || negb (JS.truthy (channelId message))
              || negb (JS.truthy (chatType message)) then
        logR warn "Пропускаем Wazzup сообщение без chatId, channelId или chatType" ;;
        processInboundLoop env allowedChatIds rest
      else
        match resolveMessageText message (mediaService env) with
        | None =>
            logR debug "Не удалось извлечь текст из сообщения Wazzup" ;;
            processInboundLoop env allowedChatIds rest
        | Some userText =>
            logR info "Передаём входящее сообщение в BaqytAgent" ;;
            called message ;;
            match generate env message userText with
            | Resolved agentResult =>
                let replies := extractAssistantReplies agentResult in
                logR info "Ответы BaqytAgent перед отправкой в Wazzup" ;;
                if (length replies =? 0)%nat then
                  logR warn "Агент вернул пустой ответ, пропускаем отправку в Wazzup" ;;
                  processInboundLoop env allowedChatIds rest
                else
                  sendReplies env message replies ;;
                  processInboundLoop env allowedChatIds rest
            | AbortError =>
                logR error "Таймаут при обработке сообщения агентом"
            | OtherError =>
                logR error "Ошибка при обработке сообщения Wazzup агентом" ;;
                processInboundLoop env allowedChatIds rest
            end
        end
  end.

Definition processInboundMessages (env : Env) (messages : list WazzupMessage) : R unit :=
  let allowedChatIds := resolveTargetChatIds (WAZZUP_TARGET_CHAT_IDS env) in
  processInboundLoop env allowedChatIds messages.

(** *** Outbound records: stop commands and conversation history *)

Definition sourceOf (message : WazzupMessage) : Source :=
  match isEcho message with
  | Some true => if negb (JS.truthy (authorName message)) then agent else manager
  | _ => manager
  end.

Definition createdAtOf (env : Env) (message : WazzupMessage) : Z :=
  if JS.truthy (dateTime message) then
    JS.nullish (dateParse env (JS.nullish (dateTime message) "")) (now env)
  else now env.

Definition metadataOf (message : WazzupMessage) : Metadata :=
  mkMetadata (sourceOf message) (messageId message) (channelId message)
    (chatType message) (status message) (isEcho message) (authorName message)
    (contentUri message).

Definition recordOf (env : Env) (message : WazzupMessage) (text : string) (id : nat)
    : MastraMessageV2 :=
  mkRecord id "assistant" (JS.nullish (chatId message) "") "wazzup"
    (createdAtOf env message) (JS.nullish (type message) "text") [text]
    (metadataOf message).

(** A call of the stop-flag store, awaited inside [try]: [true] when it
    resolved, [false] when the [catch] took over. *)
Definition storeCall (run : StopFlag.State -> bool * StopFlag.State) : R bool :=
  fun st =>
    let (resolved, flags) := run (stopFlags st) in
    (resolved, mkState (redisStopFlagService st) (messageQueueService st) flags
                 (queue st) (memory st) (generated_for st) (posted st) (log st)).

Definition generateId : R nat :=
  fun st =>
    match memory st with
    | Some mem =>
        (generated mem,
         mkState (redisStopFlagService st) (messageQueueService st) (stopFlags st)
           (queue st) (Some (mkMemory (S (generated mem)) (saved mem)))
           (generated_for st) (posted st) (log st))
    | None => (0%nat, st)
    end.

Definition saveMessages (records : list MastraMessageV2) : R unit :=
  fun st =>
    match memory st with
    | Some mem =>
        (tt,
         mkState (redisStopFlagService st) (messageQueueService st) (stopFlags st)
           (queue st) (Some (mkMemory (generated mem) (saved mem ++ records)))
           (generated_for st) (posted st) (log st))
    | None => (tt, st)
    end.

(** The [for ... of] loop of [persistOutboundMessages]; [records] is the
    array the loop pushes to. *)
Fixpoint collectRecords (env : Env) (outboundMessages : list WazzupMessage)
    (records : list MastraMessageV2) : R (list MastraMessageV2) :=
  match outboundMessages with
  | [] => ret records
  | message :: rest =>
      match resolveOutboundMessageText message with
      | None =>
          logR debug "Пропускаем исходящее Wazzup без текста и вложений" ;;
          collectRecords env rest records
      | Some text =>
          let trimmed := JS.toLowerCase (JS.trim text) in
          let push :=
            (id <- generateId ;;
             collectRecords env rest (records ++ [recordOf env message text id])) in
          fun st =>
            match sourceOf message, redisStopFlagService st with
            | manager, Some service =>
                if String.eqb trimmed "/stop" then
                  (resolved <- storeCall
                     (StopFlag.setStop service (JS.nullish (chatId message) "") "stop") ;;
                   (if (resolved : bool)
                    then logR info "Активирован stop-флаг по команде менеджера"
                    else logR error "Не удалось установить stop-флаг в Redis") ;;
                   collectRecords env rest records) st
                else if String.eqb trimmed "/start" then
                  (resolved <- storeCall
                     (StopFlag.clearStop service (JS.nullish (chatId message) "")) ;;
                   (if (resolved : bool)
                    then logR info "Снят stop-флаг по команде менеджера"
                    else logR error "Не удалось снять stop-флаг в Redis") ;;
                   collectRecords env rest records) st
                else push st
            | _, _ => push st
            end
      end
  end.

(** The filter of [persistOutboundMessages]. *)
Definition isOutbound (allowedChatIds : list string) (message : WazzupMessage) : bool :=
  shouldPersistOutboundMessage message
  && JS.includes allowedChatIds (JS.nullish (chatId message) "").

(** The end of [persistOutboundMessages]: [if (!records.length) return],
    then [memory.saveMessages] and a log entry. *)
Definition saveRecords (records : list MastraMessageV2) : R unit :=
  if (length records =? 0)%nat then ret tt
  else
    saveMessages records ;;
    logR info "Сохранили исходящие Wazzup сообщения в память".

Definition persistOutboundMessages (env : Env) (messages : list WazzupMessage)
    (allowedChatIds : list string) : R unit :=
  let outboundMessages := List.filter (isOutbound allowedChatIds) messages in
  if (length outboundMessages =? 0)%nat then ret tt
  else
    fun st =>
      match memory st with
      | None =>
          logR warn "Не удалось получить память агента Baqyt, исходящие Wazzup не сохранены" st
      | Some _ =>
          (records <- collectRecords env outboundMessages [] ;;
           saveRecords records) st
      end.


(** *** What a delivery may do *)





(** *** What [persistOutboundMessages] may do *)

(** A record of the conversation history for a chat of the allowlist. *)
Definition historyRecord (allowedChatIds : list string) (record : MastraMessageV2) : Prop :=
  role record = "assistant"
  /\ resourceId record = "wazzup"
  /\ In (threadId record) allowedChatIds
  /\ threadId record <> ""
  /\ exists text, parts record = [text] /\ text <> "".

(** From [st] to [st'] with the records [added] pushed: only the memory
    and the stop flags change; the memory has handed out one identifier
    for each record; a stop flag that changed is the flag of a chat of the
    allowlist, in the store of the module variable. *)
Definition Collected (allowedChatIds : list string) (st st' : State)
    (added : list MastraMessageV2) : Prop :=
  redisStopFlagService st' = redisStopFlagService st
  /\ messageQueueService st' = messageQueueService st
  /\ queue st' = queue st
  /\ posted st' = posted st
  /\ generated_for st' = generated_for st
  /\ Forall (historyRecord allowedChatIds) added
  /\ (forall mem,
        memory st = Some mem ->
        memory st' = Some (mkMemory (generated mem + length added) (saved mem))
        /\ map id added = seq (generated mem) (length added))
  /\ (forall key,
        StopFlag.keys (stopFlags st') !! key <> StopFlag.keys (stopFlags st) !! key ->
        exists service chat,
          redisStopFlagService st = Some service
          /\ In chat allowedChatIds
          /\ key = StopFlag.buildKey service chat).

(** *** The handler of the route *)








End Route.

(** ** The life of the worker: start, stop and the loop

    [start()] and [stop()] of wazzup-queue-worker.ts, and the condition
    of the loop of [processQueue].  [stop()] runs to its
    [await this.processingPromise] and goes on when the loop it waits for
    has returned; a loop looks at [this.isRunning] each time it has done
    a pass of its body.  The body itself does not touch these fields. *)

Module Lifecycle.

(** The fields [start] and [stop] work on, the calls of [processQueue]
    by the number of their promise, and what [stop] has done. *)
Record Worker := mkWorker {
  isRunning : bool;
  processingPromise : option nat;   (* this.processingPromise: a promise, by number *)
  started : nat;                    (* calls of processQueue() so far *)
  loops : list nat;                 (* the calls of processQueue() that have not returned *)
  stopping : list nat;              (* calls of stop() suspended at their await, and on what *)
  disconnects : nat;                (* calls of queueService.disconnect() *)
  log : Log;
}.

(** The fields as the declarations initialise them. *)
Definition idle : Worker := mkWorker false None 0 [] [] 0 [].

(** [start()]; the new loop finds [isRunning] true and suspends in its
    first [dequeue]. *)
Definition start (w : Worker) : Worker :=
  if isRunning w then
    mkWorker (isRunning w) (processingPromise w) (started w) (loops w) (stopping w)
      (disconnects w) (log w ++ [(warn, "WazzupQueueWorker уже запущен")])
  else
    mkWorker true (Some (started w)) (S (started w)) (loops w ++ [started w])
      (stopping w) (disconnects w) (log w ++ [(info, "WazzupQueueWorker запущен")]).

(** The end of the constructor: [if (options.enabled !== false) this.start()]. *)
Definition new (enabled : option bool) : Worker :=
  match enabled with
  | Some false => idle
  | _ => start idle
  end.

(** The end of [stop()], after the loop it waited for has returned:
    [await this.queueService.disconnect()] and a log entry. *)
Definition stopped (w : Worker) : Worker :=
  mkWorker (isRunning w) (processingPromise w) (started w) (loops w) (stopping w)
    (S (disconnects w)) (log w ++ [(info, "WazzupQueueWorker остановлен")]).

(** [stop()] up to its [await]: nothing on a worker that is not running;
    otherwise the flag is cleared and the call waits for the promise in
    [this.processingPromise], or goes on at once when there is none or
    its loop has returned. *)
Definition stop (w : Worker) : Worker :=
  if negb (isRunning w) then w
  else
    let cleared :=
      mkWorker false (processingPromise w) (started w) (loops w) (stopping w)
        (disconnects w) (log w ++ [(info, "Остановка WazzupQueueWorker...")]) in
    match processingPromise w with
    | Some p =>
        if existsb (Nat.eqb p) (loops w) then
          mkWorker false (processingPromise w) (started w) (loops w) (stopping w ++ [p])
            (disconnects w) (log cleared)
        else stopped cleared
    | None => stopped cleared
    end.

Fixpoint stoppedAll (n : nat) (w : Worker) : Worker :=
  match n with
  | O => w
  | S n => stoppedAll n (stopped w)
  end.

(** The loop [i] has done a pass and evaluates [while (this.isRunning)]:
    it goes on, or it returns and every [stop()] that waited for it goes on. *)
Definition check (i : nat) (w : Worker) : Worker :=
  if negb (existsb (Nat.eqb i) (loops w)) then w
  else if isRunning w then w
  else
    stoppedAll (length (List.filter (Nat.eqb i) (stopping w)))
      (mkWorker (isRunning w) (processingPromise w) (started w)
         (List.filter (fun l => negb (Nat.eqb l i)) (loops w))
         (List.filter (fun p => negb (Nat.eqb p i)) (stopping w))
         (disconnects w) (log w)).

Inductive Event :=
| Start
| Stop
| Check (i : nat).

Definition step (w : Worker) (e : Event) : Worker :=
  match e with
  | Start => start w
  | Stop => stop w
  | Check i => check i w
  end.

Definition run (w : Worker) (events : list Event) : Worker := fold_left step events w.

(** A run in which [start()] is called only on a worker that is running
    or has no loop left. *)
Fixpoint orderly (w : Worker) (events : list Event) : Prop :=
  match events with
  | [] => True
  | e :: rest =>
      match e with
      | Start => isRunning w = true \/ loops w = []
      | _ => True
      end
      /\ orderly (step w e) rest
  end.

(** What holds of the worker in every run: a running worker has its
    current loop among the loops; a [stop()] that waits, waits for a loop
    that has not returned; the loops are numbered below [started], each
    once; no [stop()] waits for the current loop of a running worker. *)
Definition sound (w : Worker) : Prop :=
  (isRunning w = true ->
     exists p, processingPromise w = Some p /\ In p (loops w))
  /\ (forall p, In p (stopping w) -> In p (loops w))
  /\ (forall l, In l (loops w) -> (l < started w)%nat)
  /\ NoDup (loops w)
  /\ (isRunning w = true ->
      forall p, processingPromise w = Some p -> ~ In p (stopping w)).

End Lifecycle.

(** ** Sample data *)

Module Sample.

(** The service the worker builds: default prefix, three attempts. *)
Definition service : Queue.WazzupMessageQueueService :=
  Queue.mkService "mastra:wazzup-queue" 3.

(** A reply as the route hands it to [enqueue]. *)
Definition reply : Queue.WazzupOutboundMessage :=
  Queue.mkMessage "channel-1" "whatsapp" "77066318623" "Здравствуйте" None None None.

(** The same reply after [k] passes through [enqueue], first at time 1000. *)
Definition attempted (k : Z) : Queue.WazzupOutboundMessage :=
  Queue.with_attempt_timestamp reply (Some k) (Some 1000).

Definition other : Queue.WazzupOutboundMessage :=
  Queue.mkMessage "channel-1" "whatsapp" "77475318623" "Добрый день" None (Some 1) (Some 900).

Definition emptyQueue : Queue.State := Queue.mkState ∅ [].

(** A server whose main list holds the given elements. *)
Definition waiting (elements : list Queue.element) : Queue.State :=
  Queue.mkState (<[Queue.getQueueKey service := elements]> ∅) [].

(** The worker, as its constructor builds it, and an API token. *)
Definition worker : Worker.WazzupQueueWorker := Worker.mkWorker service 1.

Definition token : option string := Some "secret".

(** A turn of the worker at time [at_], the send API answering 500. *)
Definition refused (at_ : Z) : Worker.Turn := Worker.mkTurn at_ (Worker.NotOk 500).

(** An inbound text message of an allowlisted chat. *)
Definition inbound : Route.WazzupMessage :=
  Route.mkMessage (Some "wamid-1") (Some "77066318623") (Some "channel-1")
    (Some "whatsapp") (Some "text") (Some "Здравствуйте") None (Some "inbound")
    (Some false) None None.

(** The default allowlist. *)
Definition allowlist : list string := Route.resolveTargetChatIds None.

(** A record of the payload for a message sent in an allowlisted chat by
    an operator, not an echo, with the given status and text. *)
Definition outbound (status text : string) : Route.WazzupMessage :=
  Route.mkMessage (Some "wamid-2") (Some "77066318623") (Some "channel-1")
    (Some "whatsapp") (Some "text") (Some text) None (Some status)
    (Some false) (Some "Operator") None.

Definition media : Route.WazzupMediaService :=
  Route.mkMedia (fun _ => None) (fun _ => None).

(** An agent that answers every message with one line. *)
Definition answers : Route.WazzupMessage -> string -> Route.Generate :=
  fun _ _ => Route.Resolved (Route.mkResult None (Some "Добрый день!")).

(** An environment with everything configured, by its agent. *)
Definition envWith (agent : Route.WazzupMessage -> string -> Route.Generate)
    : Route.Env :=
  Route.mkEnv (Some "redis://localhost:6379") (Some "secret") None true 5000
    (fun _ => None) media agent (fun _ => Worker.Ok2xx).

Definition env : Route.Env := envWith answers.

(** A second inbound message of the same payload. *)
Definition inboundNext : Route.WazzupMessage :=
  Route.mkMessage (Some "wamid-3") (Some "77066318623") (Some "channel-1")
    (Some "whatsapp") (Some "text") (Some "Спасибо") None (Some "inbound")
    (Some false) None None.

(** An agent whose call for the message [id] ends as [outcome], and that
    answers the other messages. *)
Definition endsOn (id : string) (outcome : Route.Generate)
    : Route.WazzupMessage -> string -> Route.Generate :=
  fun message userText =>
    if JS.equals (Route.messageId message) id then outcome
    else answers message userText.

Definition stopStore : StopFlag.RedisStopFlagService :=
  StopFlag.mkService "mastra:input-stop".

(** The route at the start of a delivery, with the stop-flag store the
    module load left, an empty server and an empty memory. *)
Definition route (store : option StopFlag.RedisStopFlagService) : Route.State :=
  Route.mkState store None (StopFlag.mkState ∅ []) emptyQueue
    (Some (Route.mkMemory 0 [])) [] [] [].

End Sample.

(** * Properties *)

(** ** Strings *)

Section Strings.

Lemma includes_In (xs : list string) (x : string) :
  JS.includes xs x = true <-> In x xs.
Proof.
  unfold JS.includes. rewrite existsb_exists. split.
  - intros (y & Hin & Heq). apply String.eqb_eq in Heq. subst y. exact Hin.
  - intros Hin. exists x. split; [exact Hin|apply String.eqb_refl].
Qed.

Lemma nonEmpty_true (s : string) : JS.nonEmpty s = true <-> s <> "".
Proof.
  unfold JS.nonEmpty. destruct (String.eqb_spec s ""); simpl; split; congruence.
Qed.

Lemma truthy_Some (o : option string) :
  JS.truthy o = true <-> exists s, o = Some s /\ s <> "".
Proof.
  destruct o as [s|]; simpl.
  - fold (JS.nonEmpty s). rewrite nonEmpty_true. split.
    + intros H. exists s. split; [reflexivity|exact H].
    + intros (s' & [= <-] & H). exact H.
  - split; [discriminate|]. intros (s & H & _). discriminate H.
Qed.

Lemma equals_Some (o : option string) (s : string) :
  JS.equals o s = true <-> o = Some s.
Proof.
  destruct o as [x|]; simpl.
  - rewrite String.eqb_eq. split; congruence.
  - split; discriminate.
Qed.






End Strings.

(** ** The two lists of the queue *)

Section QueueLists.
Import Queue.

Variable svc : WazzupMessageQueueService.

Lemma append_main_dead (prefix : string) :
  prefix +:+ ":main" <> prefix +:+ ":dead-letters".
Proof.
  induction prefix as [|c prefix IH]; simpl.
  - discriminate.
  - intros H. injection H as H. contradiction.
Qed.

Lemma keys_differ : getQueueKey svc <> getDeadLetterKey svc.
Proof. apply append_main_dead. Qed.

Lemma lRange_insert_eq db key es : lRange (<[key := es]> db) key = es.
Proof. unfold lRange. by rewrite lookup_insert_eq. Qed.

Lemma lRange_insert_ne db key key' es :
  key <> key' -> lRange (<[key := es]> db) key' = lRange db key'.
Proof. intros Hne. unfold lRange. by rewrite lookup_insert_ne. Qed.

Lemma keys_differ' : getDeadLetterKey svc <> getQueueKey svc.
Proof. intros H. symmetry in H. exact (keys_differ H). Qed.

(** Runs the Redis commands of a goal and reads the two lists back. *)
Ltac run_queue :=
  unfold main, deadLetters, retryMessage, enqueue, dequeue, bind, ret,
    rPush, lLen, logM in *;
  simpl;
  rewrite ?lRange_insert_eq, ?(lRange_insert_ne _ _ _ _ keys_differ),
    ?(lRange_insert_ne _ _ _ _ keys_differ').

(** What [enqueue] does to the lists. *)
Lemma enqueue_lists now message st :
  main svc (snd (enqueue svc now message st))
    = main svc st ++ [JSON_stringify (payload now message)]
  /\ deadLetters svc (snd (enqueue svc now message st)) = deadLetters svc st.
Proof. run_queue. split; reflexivity. Qed.

Lemma retryMessage_exhausted now message st :
  maxRetries svc <= JS.nullish (attempt message) 0 ->
  fst (retryMessage svc now message st) = false
  /\ deadLetters svc (snd (retryMessage svc now message st))
     = deadLetters svc st ++ [JSON_stringify message]
  /\ main svc (snd (retryMessage svc now message st)) = main svc st.
Proof.
  intros Hle. unfold retryMessage.
  destruct (Z.leb_spec (maxRetries svc) (JS.nullish (attempt message) 0)); [|lia].
  run_queue. repeat split.
Qed.

Lemma retryMessage_requeues now message st :
  JS.nullish (attempt message) 0 < maxRetries svc ->
  fst (retryMessage svc now message st) = true
  /\ main svc (snd (retryMessage svc now message st))
     = main svc st ++ [JSON_stringify (requeued now message)]
  /\ deadLetters svc (snd (retryMessage svc now message st)) = deadLetters svc st.
Proof.
  intros Hlt. unfold retryMessage.
  destruct (Z.leb_spec (maxRetries svc) (JS.nullish (attempt message) 0)); [lia|].
  run_queue. repeat split.
Qed.

(** The record written on a retry: attempt one higher, a timestamp that
    is set kept, the other fields those of the message. *)
Lemma requeued_fields now message :
  attempt (requeued now message) = Some (JS.nullish (attempt message) 0 + 1)
  /\ timestamp (requeued now message) = Some (JS.nullish (timestamp message) now)
  /\ channelId (requeued now message) = channelId message
  /\ chatType (requeued now message) = chatType message
  /\ chatId (requeued now message) = chatId message
  /\ text (requeued now message) = text message
  /\ refMessageId (requeued now message) = refMessageId message.
Proof. repeat split. Qed.

(** BLPOP on the main list. *)
Lemma blPop_main timeoutSeconds st :
  match main svc st with
  | [] => blPop (getQueueKey svc) timeoutSeconds st = (None, st)
  | e :: rest =>
      fst (blPop (getQueueKey svc) timeoutSeconds st) = Some e
      /\ main svc (snd (blPop (getQueueKey svc) timeoutSeconds st)) = rest
      /\ deadLetters svc (snd (blPop (getQueueKey svc) timeoutSeconds st))
         = deadLetters svc st
      /\ log (snd (blPop (getQueueKey svc) timeoutSeconds st)) = log st
  end.
Proof.
  unfold main, deadLetters, blPop.
  destruct (lRange (redis st) (getQueueKey svc)) as [|e rest]; [reflexivity|].
  simpl. rewrite lRange_insert_eq, (lRange_insert_ne _ _ _ _ keys_differ).
  repeat split.
Qed.

Lemma dequeue_empty timeoutSeconds st :
  main svc st = [] -> dequeue svc timeoutSeconds st = (None, st).
Proof.
  intros Hmain. pose proof (blPop_main timeoutSeconds st) as Hpop.
  rewrite Hmain in Hpop. unfold dequeue, bind. rewrite Hpop. reflexivity.
Qed.

(** The head of the main list decides what [dequeue] does. *)
Lemma dequeue_head timeoutSeconds st e rest :
  main svc st = e :: rest ->
  fst (dequeue svc timeoutSeconds st) = JSON_parse e
  /\ main svc (snd (dequeue svc timeoutSeconds st)) = rest
  /\ deadLetters svc (snd (dequeue svc timeoutSeconds st)) = deadLetters svc st
  /\ log (snd (dequeue svc timeoutSeconds st))
     = match JSON_parse e with
       | Some _ => log st
       | None => log st ++ [(error, "Не удалось распарсить сообщение из очереди")]
       end.
Proof.
  intros Hmain. pose proof (blPop_main timeoutSeconds st) as Hpop.
  rewrite Hmain in Hpop. destruct Hpop as (Hres & Hm & Hd & Hl).
  unfold dequeue, bind.
  destruct (blPop (getQueueKey svc) timeoutSeconds st) as [result st1].
  simpl in *. subst result.
  destruct (JSON_parse e); simpl; [repeat split; assumption|].
  unfold logM, ret, main, deadLetters in *; simpl.
  rewrite Hm, Hd, Hl. repeat split.
Qed.

(** First in, first out: after [enqueue], [dequeue] gives the oldest
    record, which is the new one only when nothing was waiting. *)
Lemma enqueue_dequeue_fifo now message timeoutSeconds st :
  let st1 := snd (enqueue svc now message st) in
  fst (dequeue svc timeoutSeconds st1)
  = match main svc st with
    | [] => Some (payload now message)
    | oldest :: _ => JSON_parse oldest
    end.
Proof.
  intros st1. destruct (enqueue_lists now message st) as [Hm _]. fold st1 in Hm.
  destruct (main svc st) as [|oldest rest] eqn:E; simpl in Hm.
  - destruct (dequeue_head timeoutSeconds st1 _ _ Hm) as [H _]. exact H.
  - destruct (dequeue_head timeoutSeconds st1 _ _ Hm) as [H _]. exact H.
Qed.

End QueueLists.

(** ** One turn of the worker *)

Section WorkerTurns.
Import Queue Worker.

Variable w : WazzupQueueWorker.
Variable token : option string.

Let svc := queueService w.





(** [poll] moves the head of the main list into the local variable. *)
Lemma poll_lists r :
  deadLetters svc (state (poll w r)) = deadLetters svc (state r)
  /\ match main svc (state r) with
     | [] => inFlight (poll w r) = None /\ main svc (state (poll w r)) = []
     | e :: rest =>
         inFlight (poll w r) = JSON_parse e /\ main svc (state (poll w r)) = rest
     end.
Proof.
  unfold poll. fold svc.
  destruct (main svc (state r)) as [|e rest] eqn:Hmain.
  - rewrite (dequeue_empty svc _ _ Hmain). simpl. rewrite Hmain. repeat split.
  - destruct (dequeue_head svc (pollTimeoutSeconds w) _ _ _ Hmain) as (H1 & H2 & H3 & _).
    destruct (dequeue svc (pollTimeoutSeconds w) (state r)) as [message st].
    simpl in *. repeat split; assumption.
Qed.



(** *** Counting the copies of a logical message *)

Variable l : WazzupOutboundMessage.








(** *** The attempts of a logical message over a run *)







End WorkerTurns.

(** ** Stop commands in the loop of persistOutboundMessages *)

Section StopCommands.

Variable env : Route.Env.





(** A call of the store that resolves has run its command; one that
    rejects has left the keys alone. *)
Lemma call_keys run flags :
  StopFlag.keys (snd (StopFlag.call run flags))
  = if fst (StopFlag.call run flags) then run (StopFlag.keys flags)
    else StopFlag.keys flags.
Proof.
  unfold StopFlag.call. destruct (StopFlag.rejections flags) as [|[] later]; reflexivity.
Qed.



End StopCommands.

(** ** The lazy connection in every run *)

Section Connection.
Import Connect.

Lemma In_waiters op p c : In (op, p) (awaiting c) -> In op (waiters p c).
Proof.
  intros Hin. unfold waiters. apply in_map_iff. exists (op, p). split; [reflexivity|].
  apply List.filter_In. split; [exact Hin|]. simpl. apply Nat.eqb_refl.
Qed.

(** When every suspended call waits for [p], none waits for another. *)
Lemma others_nil p c :
  (forall op q, In (op, q) (awaiting c) -> Some p = Some q) -> others p c = [].
Proof.
  intros Hall. unfold others.
  induction (awaiting c) as [|[op q] rest IH]; [reflexivity|].
  simpl. assert (Hq : Some p = Some q) by (apply (Hall op); left; reflexivity).
  injection Hq as <-. rewrite Nat.eqb_refl. simpl.
  apply IH. intros op' q' Hin. apply (Hall op'). right. exact Hin.
Qed.

Lemma consistent_fresh : consistent fresh.
Proof. unfold consistent, fresh; simpl. repeat split; try discriminate; tauto. Qed.

Lemma consistent_ensureClient c op : consistent c -> consistent (ensureClient c op).
Proof.
  intros (Hpend & Hwait & Hopen & Hclosed). unfold ensureClient.
  destruct (isOpen c) eqn:Eopen.
  - specialize (Hopen eq_refl).
    unfold consistent; simpl. split; [|split; [|split]].
    + intros p Hp. congruence.
    + exact Hwait.
    + intros _. exact Hopen.
    + discriminate.
  - destruct (connectPromise c) as [p|] eqn:Epromise.
    + assert (Hp : pending c = Some p).
      { destruct (pending c) as [q|] eqn:Eq.
        - destruct (Hpend q eq_refl) as (Hq & _). congruence.
        - specialize (Hclosed eq_refl eq_refl). congruence. }
      destruct (Hpend p Hp) as (_ & _ & _ & Hlt).
      unfold consistent; simpl. split; [|split; [|split]].
      * intros p' Hp'. assert (p' = p) as -> by congruence.
        repeat split; [|exact Hlt].
        exists op. apply in_or_app. right. left. reflexivity.
      * intros op' q Hin. apply in_app_or in Hin as [Hin|[Heq|[]]].
        -- apply (Hwait op'). exact Hin.
        -- injection Heq as _ <-. exact Hp.
      * discriminate.
      * intros _ Hnone. congruence.
    + assert (Hp : pending c = None).
      { destruct (pending c) as [q|] eqn:Eq; [|reflexivity].
        destruct (Hpend q eq_refl) as (Hq & _). congruence. }
      unfold consistent; simpl. split; [|split; [|split]].
      * intros p' Hp'. injection Hp' as <-.
        repeat split; [|lia].
        exists op. apply in_or_app. right. left. reflexivity.
      * intros op' q Hin. apply in_app_or in Hin as [Hin|[Heq|[]]].
        -- specialize (Hwait op' q Hin). congruence.
        -- injection Heq as _ <-. reflexivity.
      * discriminate.
      * discriminate.
Qed.

Lemma consistent_settled c :
  consistent c -> consistent (connected c) /\ consistent (failed c).
Proof.
  intros Hc. pose proof Hc as (Hpend & Hwait & Hopen & Hclosed).
  unfold connected, failed. destruct (pending c) as [p|] eqn:Ep; [|split; exact Hc].
  assert (Hothers : others p c = []).
  { apply others_nil. intros op q Hin. apply (Hwait op). exact Hin. }
  destruct (Hpend p eq_refl) as (_ & _ & [op Hop] & _).
  apply In_waiters in Hop.
  rewrite Hothers. split; unfold consistent; simpl.
  - repeat split; try discriminate; try tauto.
  - destruct (waiters p c); [destruct Hop|].
    repeat split; try discriminate; try tauto.
Qed.

(** Every run leaves the client consistent. *)
Lemma consistent_run events : consistent (run events).
Proof.
  unfold run. induction events as [|e events IH] using rev_ind.
  - exact consistent_fresh.
  - rewrite fold_left_app. simpl.
    destruct e; simpl.
    + apply consistent_ensureClient, IH.
    + apply consistent_settled, IH.
    + apply consistent_settled, IH.
Qed.

End Connection.

(** ** Claims on the queue service *)

(** C1.  [retryMessage(msg)], with [a] the attempt of [msg] (0 when it has
    none): when [a >= maxRetries] it appends [msg] as it is to the dead
    letters, leaves the main list alone and returns false; otherwise it
    returns true and appends to the main list a record with attempt
    [a + 1], with the timestamp of [msg] when it has one (the time of the
    call otherwise) and with the other fields of [msg], leaving the dead
    letters alone.  With [maxRetries = 3] and a message at attempt 1, three
    calls in a row, each on the record the call before wrote, requeue at
    attempt 2, requeue at attempt 3, then dead-letter and return false. *)
Theorem retryMessage_requeues_then_dead_letters
    (svc : Queue.WazzupMessageQueueService) (now : Z)
    (msg : Queue.WazzupOutboundMessage) (st : Queue.State) :
  let a := JS.nullish (Queue.attempt msg) 0 in
  let out := Queue.retryMessage svc now msg st in
  (Queue.maxRetries svc <= a ->
     fst out = false
     /\ Queue.deadLetters svc (snd out)
        = Queue.deadLetters svc st ++ [Queue.JSON_stringify msg]
     /\ Queue.main svc (snd out) = Queue.main svc st)
  /\ (a < Queue.maxRetries svc ->
      exists record,
        fst out = true
        /\ Queue.main svc (snd out) = Queue.main svc st ++ [Queue.JSON_stringify record]
        /\ Queue.deadLetters svc (snd out) = Queue.deadLetters svc st
        /\ Queue.attempt record = Some (a + 1)
        /\ Queue.timestamp record = Some (JS.nullish (Queue.timestamp msg) now)
        /\ (forall t, Queue.timestamp msg = Some t -> Queue.timestamp record = Some t)
        /\ Queue.channelId record = Queue.channelId msg
        /\ Queue.chatType record = Queue.chatType msg
        /\ Queue.chatId record = Queue.chatId msg
        /\ Queue.text record = Queue.text msg
        /\ Queue.refMessageId record = Queue.refMessageId msg)
  /\ (Queue.maxRetries svc = 3 -> Queue.attempt msg = Some 1 ->
      forall now2 now3 : Z,
      exists second third : Queue.WazzupOutboundMessage,
        let out2 := Queue.retryMessage svc now2 second (snd out) in
        let out3 := Queue.retryMessage svc now3 third (snd out2) in
        fst out = true
        /\ Queue.main svc (snd out) = Queue.main svc st ++ [Queue.JSON_stringify second]
        /\ Queue.attempt second = Some 2
        /\ fst out2 = true
        /\ Queue.main svc (snd out2)
           = Queue.main svc (snd out) ++ [Queue.JSON_stringify third]
        /\ Queue.attempt third = Some 3
        /\ fst out3 = false
        /\ Queue.deadLetters svc (snd out3)
           = Queue.deadLetters svc st ++ [Queue.JSON_stringify third]
        /\ Queue.main svc (snd out3) = Queue.main svc (snd out2)).
Proof.
  intros a out. subst a out. split; [|split].
  - apply retryMessage_exhausted.
  - intros Hlt. exists (Queue.requeued now msg).
    destruct (retryMessage_requeues svc now msg st Hlt) as (Hres & Hmain & Hdead).
    destruct (requeued_fields now msg) as (Ha & Ht & Hrest).
    repeat (split; [assumption|]).
    split; [|exact Hrest].
    intros t Hset. rewrite Ht, Hset. reflexivity.
  - intros Hmax Hone now2 now3.
    set (second := Queue.requeued now msg).
    set (third := Queue.requeued now2 second).
    assert (H2 : Queue.attempt second = Some 2)
      by (unfold second, Queue.requeued, Queue.payload; simpl; rewrite Hone; reflexivity).
    assert (H3 : Queue.attempt third = Some 3)
      by (unfold third, second, Queue.requeued, Queue.payload; simpl; rewrite Hone;
          reflexivity).
    exists second, third.
    destruct (retryMessage_requeues svc now msg st) as (R1 & M1 & D1);
      [rewrite Hone, Hmax; simpl; lia|].
    destruct (retryMessage_requeues svc now2 second (snd (Queue.retryMessage svc now msg st)))
      as (R2 & M2 & D2); [rewrite H2, Hmax; simpl; lia|].
    destruct (retryMessage_exhausted svc now3 third
                (snd (Queue.retryMessage svc now2 second
                        (snd (Queue.retryMessage svc now msg st)))))
      as (R3 & D3 & M3); [rewrite H3, Hmax; simpl; lia|].
    cbv zeta. rewrite D3, D2, D1. repeat split; assumption.
Qed.

(** The three calls of C1 on the sample reply at attempt 1, and one call
    on it at attempt 3. *)
Lemma retryMessage_requeues_then_dead_letters_witness :
  fst (Queue.retryMessage Sample.service 2000 (Sample.attempted 3) Sample.emptyQueue) = false
  /\ Queue.deadLetters Sample.service
       (snd (Queue.retryMessage Sample.service 2000 (Sample.attempted 3) Sample.emptyQueue))
     = [Queue.JSON_stringify (Sample.attempted 3)]
  /\ exists record,
       fst (Queue.retryMessage Sample.service 2000 (Sample.attempted 1) Sample.emptyQueue)
       = true
       /\ Queue.attempt record = Some 2
       /\ Queue.timestamp record = Some 1000.
Proof.
  split; [|split].
  - apply (proj1 (retryMessage_requeues_then_dead_letters
                    Sample.service 2000 (Sample.attempted 3) Sample.emptyQueue)).
    simpl. lia.
  - apply (proj1 (retryMessage_requeues_then_dead_letters
                    Sample.service 2000 (Sample.attempted 3) Sample.emptyQueue)).
    simpl. lia.
  - destruct (proj1 (proj2 (retryMessage_requeues_then_dead_letters
                              Sample.service 2000 (Sample.attempted 1) Sample.emptyQueue)))
      as (record & Hres & _ & _ & Ha & Ht & _).
    + simpl. lia.
    + exists record. split; [exact Hres|]. split; [exact Ha|exact Ht].
Defined.

(** C3, as the code has it.  When the main list is empty, [enqueue(msg)]
    followed by [dequeue()] gives a message whose attempt is
    [(msg.attempt ?? 0) + 1], whose timestamp is that of [msg] when it has
    one and the time of the call otherwise, and whose other fields are
    those of [msg]; the main list is empty again.  (On a list that is not
    empty, [dequeue] gives the oldest record.) *)
Theorem enqueue_then_dequeue_on_empty_queue
    (svc : Queue.WazzupMessageQueueService) (now timeoutSeconds : Z)
    (msg : Queue.WazzupOutboundMessage) (st : Queue.State) :
  Queue.main svc st = [] ->
  let out := Queue.dequeue svc timeoutSeconds (snd (Queue.enqueue svc now msg st)) in
  exists got,
    fst out = Some got
    /\ Queue.attempt got = Some (JS.nullish (Queue.attempt msg) 0 + 1)
    /\ Queue.timestamp got = Some (JS.nullish (Queue.timestamp msg) now)
    /\ (forall t, Queue.timestamp msg = Some t -> Queue.timestamp got = Some t)
    /\ Queue.channelId got = Queue.channelId msg
    /\ Queue.chatType got = Queue.chatType msg
    /\ Queue.chatId got = Queue.chatId msg
    /\ Queue.text got = Queue.text msg
    /\ Queue.refMessageId got = Queue.refMessageId msg
    /\ Queue.main svc (snd out) = [].
Proof.
  intros Hempty out. subst out.
  destruct (enqueue_lists svc now msg st) as [Hmain _].
  rewrite Hempty in Hmain. simpl in Hmain.
  destruct (dequeue_head svc timeoutSeconds _ _ _ Hmain) as (Hres & Hrest & _).
  exists (Queue.payload now msg).
  split; [exact Hres|].
  split; [reflexivity|]. split; [reflexivity|].
  split; [intros t Hset; simpl; rewrite Hset; reflexivity|].
  repeat (split; [reflexivity|]). exact Hrest.
Qed.

(** The sample reply, enqueued at time 1000 on an empty queue and taken
    back at once. *)
Lemma enqueue_then_dequeue_on_empty_queue_witness :
  exists got,
    fst (Queue.dequeue Sample.service 1
           (snd (Queue.enqueue Sample.service 1000 Sample.reply Sample.emptyQueue)))
    = Some got
    /\ Queue.attempt got = Some 1
    /\ Queue.timestamp got = Some 1000
    /\ Queue.text got = Queue.text Sample.reply.
Proof.
  destruct (enqueue_then_dequeue_on_empty_queue Sample.service 1000 1 Sample.reply
              Sample.emptyQueue)
    as (got & Hres & Ha & Ht & _ & _ & _ & _ & Htext & _).
  - reflexivity.
  - exists got. repeat split; assumption.
Defined.

(** C3, as it is stated, fails when a record is waiting: the sample reply
    is enqueued behind another message, and [dequeue] gives that one, for
    another chat and with another text. *)
Lemma enqueue_then_dequeue_counterexample :
  let st := Sample.waiting [Queue.JSON_stringify Sample.other] in
  let got := fst (Queue.dequeue Sample.service 1
                    (snd (Queue.enqueue Sample.service 1000 Sample.reply st))) in
  got = Some Sample.other
  /\ ~ (exists m, got = Some m
                 /\ Queue.chatId m = Queue.chatId Sample.reply
                 /\ Queue.text m = Queue.text Sample.reply).
Proof.
  assert (Hgot : fst (Queue.dequeue Sample.service 1
                        (snd (Queue.enqueue Sample.service 1000 Sample.reply
                                (Sample.waiting [Queue.JSON_stringify Sample.other]))))
                 = Some Sample.other) by (vm_compute; reflexivity).
  cbv zeta. split; [exact Hgot|].
  intros (m & Hm & Hchat & _). rewrite Hgot in Hm. injection Hm as <-.
  discriminate Hchat.
Qed.

(** C8.  [dequeue(timeoutSeconds)]: when the pop from the main list
    yields nothing, the result is [null] and nothing has changed; when the
    popped record does not parse, the result is [null] too, the record is
    gone from the main list, the dead letters are as before, and the log
    has one more entry, the error. *)
Theorem dequeue_null_on_timeout_and_on_corrupt_record
    (svc : Queue.WazzupMessageQueueService) (timeoutSeconds : Z) (st : Queue.State) :
  (fst (Queue.blPop (Queue.getQueueKey svc) timeoutSeconds st) = None ->
     Queue.dequeue svc timeoutSeconds st = (None, st))
  /\ (forall e,
        fst (Queue.blPop (Queue.getQueueKey svc) timeoutSeconds st) = Some e ->
        Queue.JSON_parse e = None ->
        let out := Queue.dequeue svc timeoutSeconds st in
        fst out = None
        /\ e :: Queue.main svc (snd out) = Queue.main svc st
        /\ Queue.deadLetters svc (snd out) = Queue.deadLetters svc st
        /\ Queue.log (snd out)
           = Queue.log st ++ [(error, "Не удалось распарсить сообщение из очереди")]).
Proof.
  pose proof (blPop_main svc timeoutSeconds st) as Hpop.
  destruct (Queue.main svc st) as [|head rest] eqn:Hmain.
  - split.
    + intros _. apply dequeue_empty. exact Hmain.
    + intros e He. rewrite Hpop in He. discriminate He.
  - destruct Hpop as (Hres & _). split.
    + intros Hnone. rewrite Hres in Hnone. discriminate Hnone.
    + intros e He Hparse. rewrite Hres in He. injection He as <-.
      destruct (dequeue_head svc timeoutSeconds st head rest Hmain) as (H1 & H2 & H3 & H4).
      rewrite Hparse in H1, H4. cbv zeta. rewrite H2. repeat split; assumption.
Qed.

(** [dequeue] on an empty queue, and on a queue headed by a record that is
    not JSON. *)
Lemma dequeue_null_on_timeout_and_on_corrupt_record_witness :
  Queue.dequeue Sample.service 1 Sample.emptyQueue = (None, Sample.emptyQueue)
  /\ fst (Queue.dequeue Sample.service 1
            (Sample.waiting [Queue.Unparsable "{oops"; Queue.JSON_stringify Sample.other]))
     = None
  /\ Queue.main Sample.service
       (snd (Queue.dequeue Sample.service 1
               (Sample.waiting [Queue.Unparsable "{oops"; Queue.JSON_stringify Sample.other])))
     = [Queue.JSON_stringify Sample.other].
Proof.
  split.
  - apply (proj1 (dequeue_null_on_timeout_and_on_corrupt_record
                    Sample.service 1 Sample.emptyQueue)).
    reflexivity.
  - destruct (proj2 (dequeue_null_on_timeout_and_on_corrupt_record Sample.service 1
                       (Sample.waiting [Queue.Unparsable "{oops";
                                        Queue.JSON_stringify Sample.other]))
                (Queue.Unparsable "{oops"))
      as (Hres & Hmain & _).
    + reflexivity.
    + reflexivity.
    + split; [exact Hres|]. apply (f_equal (@tail _)) in Hmain. exact Hmain.
Defined.

(** ** Claims on the worker *)



(** ** Claims on the webhook route *)



(** C9.  A message of the payload passes the filter of
    [persistOutboundMessages] exactly when its chatId is not empty, its
    status is "sent" and its chatId is in the allowlist; a message that
    does not pass can be taken out of the payload without any difference
    in the result or in the state, and a payload in which no message passes
    leaves the state as it was: no store call, no record, no log entry. *)
Theorem persistOutboundMessages_takes_only_sent_allowlisted
    (env : Route.Env) (A : list string) :
  (forall m,
     Route.isOutbound A m = true
     <-> exists c, Route.chatId m = Some c /\ c <> "" /\ In c A
                   /\ Route.status m = Some "sent")
  /\ (forall before m after st,
        Route.isOutbound A m = false ->
        Route.persistOutboundMessages env (before ++ m :: after) A st
        = Route.persistOutboundMessages env (before ++ after) A st)
  /\ (forall messages st,
        (forall m, In m messages -> Route.isOutbound A m = false) ->
        Route.persistOutboundMessages env messages A st = (tt, st)).
Proof.
  split; [|split].
  - intros m. unfold Route.isOutbound, Route.shouldPersistOutboundMessage. split.
    + intros H. apply andb_true_iff in H as [Hs Hin].
      destruct (JS.truthy (Route.chatId m)) eqn:Hc; [|discriminate Hs].
      apply truthy_Some in Hc as (c & Hc & Hne). simpl in Hs.
      destruct (JS.equals (Route.status m) "inbound"); [discriminate Hs|].
      apply equals_Some in Hs. rewrite Hc in Hin. simpl in Hin.
      apply includes_In in Hin. exists c. repeat split; assumption.
    + intros (c & Hc & Hne & Hin & Hs).
      assert (Ht : JS.truthy (Route.chatId m) = true) by (apply truthy_Some; eauto).
      rewrite Ht, Hs, Hc. simpl. apply includes_In. exact Hin.
  - intros before m after st Hout. unfold Route.persistOutboundMessages.
    rewrite !List.filter_app. simpl. rewrite Hout. reflexivity.
  - intros messages st Hnone. unfold Route.persistOutboundMessages.
    assert (Hfilter : List.filter (Route.isOutbound A) messages = []).
    { induction messages as [|m rest IH]; [reflexivity|].
      simpl. rewrite (Hnone m (or_introl eq_refl)).
      apply IH. intros m' Hin. apply Hnone. right. exact Hin. }
    rewrite Hfilter. reflexivity.
Qed.

(** A record with status "delivered" alone in the payload, and the same
    record in front of nothing else. *)
Lemma persistOutboundMessages_takes_only_sent_allowlisted_witness :
  Route.persistOutboundMessages Sample.env [Sample.outbound "delivered" "/stop"]
    Sample.allowlist (Sample.route (Some Sample.stopStore))
  = (tt, Sample.route (Some Sample.stopStore))
  /\ Route.persistOutboundMessages Sample.env
       ([] ++ Sample.outbound "read" "/stop" :: [Sample.outbound "sent" "Добрый день"])
       Sample.allowlist (Sample.route (Some Sample.stopStore))
     = Route.persistOutboundMessages Sample.env
         ([] ++ [Sample.outbound "sent" "Добрый день"])
         Sample.allowlist (Sample.route (Some Sample.stopStore)).
Proof.
  split.
  - apply (proj2 (proj2 (persistOutboundMessages_takes_only_sent_allowlisted
                           Sample.env Sample.allowlist))).
    intros m [<-|[]]. reflexivity.
  - apply (proj1 (proj2 (persistOutboundMessages_takes_only_sent_allowlisted
                           Sample.env Sample.allowlist))).
    reflexivity.
Defined.




(** The loop of [processInboundMessages] on a message it hands to the
    agent: when the call rejects with an AbortError the function returns,
    whatever follows in the payload; when it rejects with another error the
    loop goes on. *)
Lemma processInboundLoop_on_rejection
    (env : Route.Env) (A : list string) (m : Route.WazzupMessage) (userText : string)
    (rest : list Route.WazzupMessage) (st : Route.State) :
  Route.shouldHandleMessage m A = true ->
  JS.truthy (Route.channelId m) = true ->
  JS.truthy (Route.chatType m) = true ->
  Route.resolveMessageText m (Route.mediaService env) = Some userText ->
  let handed :=
    snd ((Route.logR info "Передаём входящее сообщение в BaqytAgent" ;; Route.called m) st) in
  (Route.generate env m userText = Route.AbortError ->
     Route.processInboundLoop env A (m :: rest) st
     = Route.logR error "Таймаут при обработке сообщения агентом" handed)
  /\ (Route.generate env m userText = Route.OtherError ->
      Route.processInboundLoop env A (m :: rest) st
      = Route.processInboundLoop env A rest
          (snd (Route.logR error "Ошибка при обработке сообщения Wazzup агентом" handed))).
Proof.
  intros Hhandle Hchannel Htype Htext handed.
  assert (Hchat : JS.truthy (Route.chatId m) = true).
  { unfold Route.shouldHandleMessage in Hhandle.
    destruct (JS.nullish (Route.isEcho m) false); [discriminate|].
    destruct (JS.truthy (Route.status m) && negb (JS.equals (Route.status m) "inbound"));
      [discriminate|].
    destruct (JS.truthy (Route.chatId m)); [reflexivity|discriminate]. }
  split; intros Hgen; cbn [Route.processInboundLoop];
    rewrite Hhandle, Hchat, Hchannel, Htype, Htext; simpl negb; cbv iota;
    unfold bind; simpl; rewrite Hgen; reflexivity.
Qed.

(** C5 on the code.  A payload of two inbound messages of an allowlisted
    chat, the agent's call for the first ending with an AbortError: the
    function returns at once, the agent is never called for the second
    message and nothing is enqueued or posted.  With any other error for
    the first message, the second one is handed to the agent and its reply
    is enqueued. *)
Theorem agent_timeout_returns_from_the_whole_loop :
  let payload := [Sample.inbound; Sample.inboundNext] in
  let aborted :=
    snd (Route.processInboundMessages
           (Sample.envWith (Sample.endsOn "wamid-1" Route.AbortError))
           payload (Sample.route None)) in
  let failed :=
    snd (Route.processInboundMessages
           (Sample.envWith (Sample.endsOn "wamid-1" Route.OtherError))
           payload (Sample.route None)) in
  Route.generated_for aborted = [Sample.inbound]
  /\ Queue.main Sample.service (Route.queue aborted) = []
  /\ Route.posted aborted = []
  /\ Route.generated_for failed = [Sample.inbound; Sample.inboundNext]
  /\ map (fun e => option_map Queue.text (Queue.JSON_parse e))
         (Queue.main Sample.service (Route.queue failed))
     = [Some "Добрый день!"].
Proof. vm_compute. repeat split. Qed.

(** C7, as the code has it.  With no URL in the options and none in the
    environment, both constructors throw.  The worker's constructor does
    not catch the error of the queue service.  The route does catch: at
    module load the error of the stop-flag store leaves the module variable
    null and a warning on the console, and in [sendReplyToWazzup] the error
    of the queue service is logged and the reply goes out by direct send. *)
Theorem construction_without_url_throws_and_the_route_catches
    (REDIS_URL : option string) :
  JS.truthy REDIS_URL = false ->
  (forall options,
     Queue.redisUrl options = None ->
     Queue.new REDIS_URL options
     = inl "WazzupMessageQueueService: REDIS_URL must be provided via options or env")
  /\ (forall options,
        StopFlag.redisUrl options = None ->
        StopFlag.new REDIS_URL options
        = inl "RedisStopFlagService: REDIS_URL must be provided via options or env")
  /\ (forall pollTimeoutSeconds,
        Worker.new REDIS_URL pollTimeoutSeconds
        = inl "WazzupMessageQueueService: REDIS_URL must be provided via options or env")
  /\ Route.load REDIS_URL
     = (None,
        [(warn, "[WazzupRoute] RedisStopFlagService init failed, stop commands disabled")])
  /\ (forall env payload st,
        Route.REDIS_URL env = REDIS_URL ->
        Route.USE_WAZZUP_QUEUE env = true ->
        Route.messageQueueService st = None ->
        Route.sendReplyToWazzup env payload st
        = Route.sendReplyViaHttp env payload
            (snd (Route.logR error "Ошибка при добавлении сообщения в очередь" st))).
Proof.
  intros Hurl.
  assert (Hq : forall options,
             Queue.redisUrl options = None ->
             Queue.new REDIS_URL options
             = inl "WazzupMessageQueueService: REDIS_URL must be provided via options or env")
    by (intros options Hnone; unfold Queue.new; rewrite Hnone, Hurl; reflexivity).
  assert (Hs : forall options,
             StopFlag.redisUrl options = None ->
             StopFlag.new REDIS_URL options
             = inl "RedisStopFlagService: REDIS_URL must be provided via options or env")
    by (intros options Hnone; unfold StopFlag.new; rewrite Hnone, Hurl; reflexivity).
  split; [exact Hq|]. split; [exact Hs|]. split; [|split].
  - intros p. unfold Worker.new. rewrite (Hq Queue.noOptions eq_refl). reflexivity.
  - unfold Route.load. rewrite (Hs StopFlag.noOptions eq_refl). reflexivity.
  - intros env payload st Henv Hqueue Hnone.
    unfold Route.sendReplyToWazzup.
    rewrite Hqueue, Hnone, Henv, (Hq Queue.noOptions eq_refl). reflexivity.
Qed.

(** No URL at all: the worker cannot be constructed, and the route loads
    without a stop-flag store. *)
Lemma construction_without_url_throws_and_the_route_catches_witness :
  Worker.new None None
  = inl "WazzupMessageQueueService: REDIS_URL must be provided via options or env"
  /\ fst (Route.load None) = None.
Proof.
  pose proof (construction_without_url_throws_and_the_route_catches None eq_refl)
    as (_ & _ & Hworker & Hload & _).
  split; [apply Hworker|]. rewrite Hload. reflexivity.
Defined.

(** C7, as it is stated, fails at the module load of the route: the
    constructor of the stop-flag store throws for want of a URL, and the
    load goes through all the same, with the variable left null. *)
Lemma construction_error_caught_counterexample :
  (exists thrown, StopFlag.new None StopFlag.noOptions = inl thrown)
  /\ Route.load None
     = (None,
        [(warn, "[WazzupRoute] RedisStopFlagService init failed, stop commands disabled")]).
Proof. split; [eexists|]; reflexivity. Qed.

(** ** Claims on the connection *)

(** C10.  [ensureClient] is the same text in the queue service and in the
    stop-flag store.  In every run of it, for an operation [op] that calls
    it next:
    - while a [connect()] is in progress, [op] is suspended on the promise
      of that [connect()], with the calls already waiting, and no
      [connect()] is started;
    - when the [connect()] in progress fails, [this.connectPromise] is
      cleared, every call that waited for it rejects, none stays
      suspended, and [op], coming next, starts a new [connect()] and waits
      for it;
    - on an open client [op] returns at once and no [connect()] is started. *)
Theorem ensureClient_shares_one_connection_attempt
    (events : list Connect.Event) (op : Connect.Call) :
  let c := Connect.run events in
  (forall p, Connect.pending c = Some p ->
     let c' := Connect.ensureClient c op in
     Connect.connects c' = Connect.connects c
     /\ Connect.pending c' = Some p
     /\ Connect.awaiting c' = Connect.awaiting c ++ [(op, p)]
     /\ Connect.returned c' = Connect.returned c
     /\ Connect.thrown c' = Connect.thrown c)
  /\ (forall p, Connect.pending c = Some p ->
        let c' := Connect.failed c in
        let c'' := Connect.ensureClient c' op in
        Connect.connectPromise c' = None
        /\ Connect.pending c' = None
        /\ Connect.isOpen c' = false
        /\ Connect.awaiting c' = []
        /\ (forall waiting, In (waiting, p) (Connect.awaiting c) ->
              In waiting (Connect.thrown c'))
        /\ Connect.connects c'' = S (Connect.connects c)
        /\ Connect.pending c'' = Some (Connect.connects c)
        /\ Connect.awaiting c'' = [(op, Connect.connects c)]
        /\ Connect.thrown c'' = Connect.thrown c')
  /\ (Connect.isOpen c = true ->
        let c' := Connect.ensureClient c op in
        Connect.connects c' = Connect.connects c
        /\ Connect.pending c' = None
        /\ Connect.awaiting c' = Connect.awaiting c
        /\ Connect.returned c' = Connect.returned c ++ [op]
        /\ Connect.thrown c' = Connect.thrown c).
Proof.
  intros c. pose proof (consistent_run events) as Hc. fold c in Hc.
  destruct Hc as (Hpend & Hwait & Hopen & Hclosed).
  split; [|split].
  - intros p Hp c'. destruct (Hpend p Hp) as (Hpromise & Hclosed' & _).
    subst c'. unfold Connect.ensureClient. rewrite Hclosed', Hpromise. simpl.
    repeat split. exact Hp.
  - intros p Hp c' c''.
    destruct (Hpend p Hp) as (Hpromise & Hclosed' & [first Hfirst] & _).
    assert (Hothers : Connect.others p c = []).
    { apply others_nil. intros o q Hin. rewrite <- Hp. apply (Hwait o). exact Hin. }
    pose proof (In_waiters first p c Hfirst) as Hw.
    assert (Hc' : c' = Connect.mkClient false None None (Connect.connects c) []
                         (Connect.returned c) (Connect.thrown c ++ Connect.waiters p c)).
    { subst c'. unfold Connect.failed. rewrite Hp, Hothers.
      destruct (Connect.waiters p c); [destruct Hw|reflexivity]. }
    subst c''. rewrite Hc'. simpl. repeat split.
    intros waiting Hin. apply in_or_app. right. apply In_waiters. exact Hin.
  - intros Hisopen c'. subst c'. unfold Connect.ensureClient. rewrite Hisopen. simpl.
    repeat split. apply Hopen. exact Hisopen.
Qed.

(** Two operations on a fresh client, a third one while the [connect()]
    is in progress; then the [connect()] fails and a fourth one comes. *)
Lemma ensureClient_shares_one_connection_attempt_witness :
  let c := Connect.run [Connect.Operation 1%nat; Connect.Operation 2%nat] in
  Connect.connects (Connect.ensureClient c 3%nat) = 1%nat
  /\ Connect.awaiting (Connect.ensureClient c 3%nat) = [(1, 0); (2, 0); (3, 0)]%nat
  /\ Connect.thrown (Connect.failed c) = [1; 2]%nat
  /\ Connect.connects (Connect.ensureClient (Connect.failed c) 4%nat) = 2%nat.
Proof.
  pose proof (ensureClient_shares_one_connection_attempt
                [Connect.Operation 1%nat; Connect.Operation 2%nat] 3%nat) as (Hwhile & _).
  pose proof (ensureClient_shares_one_connection_attempt
                [Connect.Operation 1%nat; Connect.Operation 2%nat] 4%nat) as (_ & Hfail & _).
  destruct (Hwhile 0%nat eq_refl) as (H1 & _ & H2 & _).
  destruct (Hfail 0%nat eq_refl) as (_ & _ & _ & _ & _ & H3 & _).
  cbv zeta. split; [exact H1|]. split; [exact H2|]. split; [reflexivity|exact H3].
Defined.


(** * Further properties *)

(** ** The queue service: order, counts, diagnostics *)

Section QueueSequences.
Import Queue.

Variable svc : WazzupMessageQueueService.

(** The record each call of a producer writes. *)
Let written (items : list (Z * WazzupOutboundMessage)) : list element :=
  map (fun item => JSON_stringify (payload (fst item) (snd item))) items.

Lemma bind_run {S A B} (m : Async S A) (k : A -> Async S B) (st : S) :
  bind m k st = k (fst (m st)) (snd (m st)).
Proof. unfold bind. destruct (m st). reflexivity. Qed.

Lemma enqueueAll_lists items :
  forall st,
    main svc (snd (enqueueAll svc items st)) = main svc st ++ written items
    /\ deadLetters svc (snd (enqueueAll svc items st)) = deadLetters svc st.
Proof.
  induction items as [|[now message] rest IH]; intros st.
  - simpl. rewrite app_nil_r. split; reflexivity.
  - cbn [enqueueAll]. rewrite bind_run.
    destruct (enqueue_lists svc now message st) as [Hm Hd].
    destruct (IH (snd (enqueue svc now message st))) as [Hm' Hd'].
    rewrite Hm', Hd', Hm, Hd.
    unfold written. simpl. rewrite <- app_assoc. split; reflexivity.
Qed.

Lemma dequeueAll_lists timeoutSeconds n :
  forall st,
    fst (dequeueAll svc timeoutSeconds n st)
    = map JSON_parse (take n (main svc st))
      ++ replicate (n - length (main svc st)) None
    /\ main svc (snd (dequeueAll svc timeoutSeconds n st)) = drop n (main svc st)
    /\ deadLetters svc (snd (dequeueAll svc timeoutSeconds n st)) = deadLetters svc st.
Proof.
  induction n as [|n IH]; intros st.
  - simpl. rewrite drop_0. repeat split.
  - cbn [dequeueAll]. rewrite !bind_run. unfold ret. cbn [fst snd].
    destruct (IH (snd (dequeue svc timeoutSeconds st))) as (I1 & I2 & I3).
    rewrite I1, I2, I3.
    destruct (main svc st) as [|e rest] eqn:Hmain.
    + rewrite (dequeue_empty svc timeoutSeconds st Hmain). cbn [fst snd].
      rewrite Hmain. rewrite !take_nil, !drop_nil. simpl.
      rewrite Nat.sub_0_r. repeat split.
    + destruct (dequeue_head svc timeoutSeconds st e rest Hmain) as (H1 & H2 & H3 & _).
      rewrite H1, H2, H3. repeat split.
Qed.

End QueueSequences.

(** X1.  First in, first out.  Whatever waits in the main list, after a
    producer has enqueued its messages a consumer that calls [dequeue] once
    for every record gets first what the records that waited parse to, in
    their order, then the records of the producer in the order of its
    calls, each with attempt and timestamp as [enqueue] set them; the main
    list is then empty, the next [dequeue] gives [null], and the dead
    letters were never touched. *)
Theorem queue_is_first_in_first_out
    (svc : Queue.WazzupMessageQueueService) (timeoutSeconds : Z)
    (items : list (Z * Queue.WazzupOutboundMessage)) (st : Queue.State) :
  let waiting := Queue.main svc st in
  let produced := snd (Queue.enqueueAll svc items st) in
  let consumed :=
    Queue.dequeueAll svc timeoutSeconds (length waiting + length items) produced in
  fst consumed
  = map Queue.JSON_parse waiting
    ++ map (fun item => Some (Queue.payload (fst item) (snd item))) items
  /\ Queue.main svc (snd consumed) = []
  /\ fst (Queue.dequeue svc timeoutSeconds (snd consumed)) = None
  /\ Queue.deadLetters svc (snd consumed) = Queue.deadLetters svc st.
Proof.
  intros waiting produced consumed.
  destruct (enqueueAll_lists svc items st) as [Hm Hd]. fold produced waiting in Hm, Hd.
  destruct (dequeueAll_lists svc timeoutSeconds (length waiting + length items) produced)
    as (H1 & H2 & H3).
  fold consumed in H1, H2, H3. rewrite Hm in H1, H2.
  assert (Hlen : length (waiting
                   ++ map (fun item => Queue.JSON_stringify
                                         (Queue.payload (fst item) (snd item))) items)
                 = (length waiting + length items)%nat)
    by (rewrite length_app, length_map; reflexivity).
  rewrite take_ge, Hlen, Nat.sub_diag in H1 by lia.
  rewrite drop_ge in H2 by lia.
  split; [|split; [exact H2|split]].
  - rewrite H1. simpl. rewrite app_nil_r, map_app, map_map. reflexivity.
  - rewrite (dequeue_empty svc timeoutSeconds _ H2). reflexivity.
  - rewrite H3. exact Hd.
Qed.

(** X2.  [getStats] counts what is waiting.  A producer's [n] calls of
    [enqueue] raise [queueLength] by [n]; a consumer's [n] calls of
    [dequeue] lower it by [n], not below zero; neither changes
    [deadLetterLength]; and [retryMessage] raises the sum of the two by
    one, whichever list it writes to. *)
Theorem getStats_counts_what_is_waiting
    (svc : Queue.WazzupMessageQueueService) (st : Queue.State) :
  let stats (s : Queue.State) := fst (Queue.getStats svc s) in
  (forall items,
     stats (snd (Queue.enqueueAll svc items st))
     = ((fst (stats st) + length items)%nat, snd (stats st)))
  /\ (forall timeoutSeconds n,
        stats (snd (Queue.dequeueAll svc timeoutSeconds n st))
        = ((fst (stats st) - n)%nat, snd (stats st)))
  /\ (forall now message,
        let after := stats (snd (Queue.retryMessage svc now message st)) in
        (fst after + snd after = S (fst (stats st) + snd (stats st)))%nat).
Proof.
  intros stats.
  assert (Hstats : forall s, stats s
            = (length (Queue.main svc s), length (Queue.deadLetters svc s)))
    by (intros s; reflexivity).
  split; [|split].
  - intros items. destruct (enqueueAll_lists svc items st) as [Hm Hd].
    rewrite !Hstats, Hm, Hd, length_app, length_map. reflexivity.
  - intros timeoutSeconds n.
    destruct (dequeueAll_lists svc timeoutSeconds n st) as (_ & Hm & Hd).
    rewrite !Hstats, Hm, Hd, length_drop. reflexivity.
  - intros now message after. subst after. rewrite !Hstats. simpl fst. simpl snd.
    destruct (Z.leb_spec (Queue.maxRetries svc) (JS.nullish (Queue.attempt message) 0))
      as [Hle|Hlt].
    + destruct (retryMessage_exhausted svc now message st Hle) as (_ & Hd & Hm).
      rewrite Hd, Hm, length_app. simpl. lia.
    + destruct (retryMessage_requeues svc now message st Hlt) as (_ & Hm & Hd).
      rewrite Hd, Hm, length_app. simpl. lia.
Qed.

Section DeadLetterDiagnostics.
Import Queue.

Variable svc : WazzupMessageQueueService.

Lemma omap_parse_length (es : list element) :
  (length (omap JSON_parse es) <= length es)%nat.
Proof.
  induction es as [|e es IH]; [reflexivity|].
  destruct e; simpl;
    change (list_omap element WazzupOutboundMessage JSON_parse es)
      with (omap JSON_parse es); lia.
Qed.

(** LRANGE 0 (count - 1) for a count of one or more: the first [count]
    elements; for a count of zero: the whole list. *)
Lemma lRangeTo_count (es : list element) (count : Z) :
  (1 <= count -> lRangeTo es (count - 1) = take (Z.to_nat count) es)
  /\ (count = 0 -> lRangeTo es (count - 1) = es).
Proof.
  unfold lRangeTo. cbv zeta. split.
  - intros Hcount. destruct (Z.ltb_spec (count - 1) 0) as [Hneg|_]; [lia|].
    destruct (Z.ltb_spec (count - 1) 0) as [Hneg|_]; [lia|].
    replace (count - 1 + 1) with count by lia. reflexivity.
  - intros ->. change (0 - 1 <? 0) with true. cbv iota.
    destruct (Z.ltb_spec (Z.of_nat (length es) + (0 - 1)) 0) as [Hneg|Hpos].
    + destruct es; [reflexivity|simpl length in Hneg; lia].
    + apply take_ge. lia.
Qed.

Lemma del_dead_letters st :
  deadLetters svc (snd (clearDeadLetters svc st)) = []
  /\ main svc (snd (clearDeadLetters svc st)) = main svc st
  /\ log (snd (clearDeadLetters svc st)) = log st.
Proof.
  unfold clearDeadLetters, del, deadLetters, main, lRange; simpl.
  rewrite lookup_delete_eq, lookup_delete_ne by apply keys_differ'.
  repeat split.
Qed.

End DeadLetterDiagnostics.

(** X3.  [getDeadLetters(count)] only reads.  For a count of one or more
    it gives the messages that the first [count] dead letters parse to, in
    their order, records that do not parse left out, so at most [count]
    messages; for a count of zero the range 0..-1 is the whole list, and
    it gives them all.  A message [retryMessage] has just dead-lettered is
    read back as it was, at the end, when the count reaches that far. *)
Theorem getDeadLetters_reads_the_dead_letters_back
    (svc : Queue.WazzupMessageQueueService) (count : Z) (st : Queue.State) :
  let read (s : Queue.State) := fst (Queue.getDeadLetters svc count s) in
  snd (Queue.getDeadLetters svc count st) = st
  /\ (1 <= count ->
        read st = omap Queue.JSON_parse (take (Z.to_nat count) (Queue.deadLetters svc st))
        /\ Z.of_nat (length (read st)) <= count)
  /\ (count = 0 -> read st = omap Queue.JSON_parse (Queue.deadLetters svc st))
  /\ (forall now message,
        Queue.maxRetries svc <= JS.nullish (Queue.attempt message) 0 ->
        Z.of_nat (length (Queue.deadLetters svc st)) < count ->
        read (snd (Queue.retryMessage svc now message st)) = read st ++ [message]).
Proof.
  intros read.
  assert (Hread : forall s, read s
            = omap Queue.JSON_parse (Queue.lRangeTo (Queue.deadLetters svc s) (count - 1)))
    by (intros s; reflexivity).
  split; [reflexivity|]. split; [|split].
  - intros Hcount. rewrite Hread.
    rewrite (proj1 (lRangeTo_count (Queue.deadLetters svc st) count) Hcount).
    split; [reflexivity|].
    pose proof (omap_parse_length (take (Z.to_nat count) (Queue.deadLetters svc st))) as Hlen.
    rewrite length_take in Hlen. lia.
  - intros Hzero. rewrite Hread.
    rewrite (proj2 (lRangeTo_count (Queue.deadLetters svc st) count) Hzero). reflexivity.
  - intros now message Hle Hroom.
    destruct (retryMessage_exhausted svc now message st Hle) as (_ & Hd & _).
    rewrite !Hread, Hd.
    rewrite !(proj1 (lRangeTo_count _ count)) by lia.
    rewrite !take_ge by (rewrite ?length_app; simpl; lia).
    rewrite omap_app. reflexivity.
Qed.

(** The sample service, with three attempts at most, a message at attempt 4
    and an empty server: the message is dead-lettered and read back. *)
Lemma getDeadLetters_reads_the_dead_letters_back_witness :
  fst (Queue.getDeadLetters Sample.service 10
         (snd (Queue.retryMessage Sample.service 2000 (Sample.attempted 4)
                 Sample.emptyQueue)))
  = [Sample.attempted 4].
Proof.
  apply (proj2 (proj2 (proj2 (getDeadLetters_reads_the_dead_letters_back
                                Sample.service 10 Sample.emptyQueue)))
           2000 (Sample.attempted 4)).
  - simpl. lia.
  - vm_compute. reflexivity.
Defined.

(** X4.  [clearDeadLetters] empties the dead letters and nothing else: the
    main list and the log are as before, [getStats] reports no dead
    letter, [getDeadLetters] gives nothing.  It returns 1 when there were
    dead letters and 0 when there were none, so a second call returns 0. *)
Theorem clearDeadLetters_empties_only_the_dead_letters
    (svc : Queue.WazzupMessageQueueService) (st : Queue.State) :
  let cleared := snd (Queue.clearDeadLetters svc st) in
  Queue.deadLetters svc cleared = []
  /\ Queue.main svc cleared = Queue.main svc st
  /\ Queue.log cleared = Queue.log st
  /\ fst (Queue.getStats svc cleared) = (length (Queue.main svc st), 0%nat)
  /\ (forall count, fst (Queue.getDeadLetters svc count cleared) = [])
  /\ fst (Queue.clearDeadLetters svc st)
     = (if decide (Queue.deadLetters svc st = []) then 0%nat else 1%nat)
  /\ fst (Queue.clearDeadLetters svc cleared) = 0%nat.
Proof.
  intros cleared. destruct (del_dead_letters svc st) as (Hd & Hm & Hl).
  fold cleared in Hd, Hm, Hl.
  split; [exact Hd|]. split; [exact Hm|]. split; [exact Hl|]. split; [|split; [|split]].
  - change (fst (Queue.getStats svc cleared))
      with (length (Queue.main svc cleared), length (Queue.deadLetters svc cleared)).
    rewrite Hd, Hm. reflexivity.
  - intros count.
    change (fst (Queue.getDeadLetters svc count cleared))
      with (omap Queue.JSON_parse
              (Queue.lRangeTo (Queue.deadLetters svc cleared) (count - 1))).
    rewrite Hd. unfold Queue.lRangeTo.
    destruct (count - 1 <? 0); destruct (_ <? 0); try reflexivity.
    + rewrite take_nil. reflexivity.
    + rewrite take_nil. reflexivity.
  - change (fst (Queue.clearDeadLetters svc st))
      with (match Queue.deadLetters svc st with [] => 0%nat | _ => 1%nat end).
    destruct (Queue.deadLetters svc st); reflexivity.
  - change (fst (Queue.clearDeadLetters svc cleared))
      with (match Queue.deadLetters svc cleared with [] => 0%nat | _ => 1%nat end).
    rewrite Hd. reflexivity.
Qed.

(** ** The worker: what a run does to the records *)

Section WorkerRuns.
Import Queue Worker.

Variable w : WazzupQueueWorker.
Variable token : option string.

Let svc := queueService w.

Lemma settle_idle t r : inFlight r = None -> settle w token t r = r.
Proof. intros Hnone. unfold settle. rewrite Hnone. reflexivity. Qed.







End WorkerRuns.




Section WorkerRecords.
Import Queue Worker.

Variable w : WazzupQueueWorker.
Variable token : option string.

Let svc := queueService w.






End WorkerRecords.



(** ** The stop-flag store *)

Section StopFlags.
Import StopFlag.






End StopFlags.



(** ** The constructors: the prefix of the keys *)

Section Prefixes.




End Prefixes.



(** ** The route: the allowlist *)

Section Allowlist.











End Allowlist.



(** ** The route: the text of a message *)

Section MessageText.





End MessageText.



(** ** The route: the replies of the agent *)

Section Replies.
Import Route.





End Replies.



(** ** The route: answering and recording *)

(** X13.  A message of a payload is answered or recorded, never both.
    Whatever the two allowlists, no message passes both
    [shouldHandleMessage] and the filter of [persistOutboundMessages]; a
    message that passes either has a chat id that is not empty and is in
    the list; one with a status other than "inbound" and "sent" passes
    neither; and an echo is never answered. *)
Theorem message_is_answered_or_recorded_never_both
    (message : Route.WazzupMessage) (answered recorded : list string) :
  Route.shouldHandleMessage message answered && Route.isOutbound recorded message = false
  /\ (Route.shouldHandleMessage message answered = true ->
      exists chat, Route.chatId message = Some chat /\ chat <> "" /\ In chat answered)
  /\ (Route.isOutbound recorded message = true ->
      exists chat, Route.chatId message = Some chat /\ chat <> "" /\ In chat recorded)
  /\ (forall status,
        Route.status message = Some status ->
        status <> "" -> status <> "inbound" -> status <> "sent" ->
        Route.shouldHandleMessage message answered = false
        /\ Route.isOutbound recorded message = false)
  /\ (Route.isEcho message = Some true ->
      Route.shouldHandleMessage message answered = false).
Proof.
  unfold Route.shouldHandleMessage, Route.isOutbound, Route.shouldPersistOutboundMessage.
  destruct message as [mid chat chan ctype type text uri status echo author date].
  cbn [Route.isEcho Route.status Route.chatId].
  split; [|split; [|split; [|split]]].
  - destruct (JS.nullish echo false); [reflexivity|].
    destruct status as [s|]; cbn [JS.truthy JS.equals andb negb].
    + destruct (String.eqb_spec s "inbound") as [->|Hs].
      * cbn [negb andb]. destruct (negb (JS.truthy chat)); [reflexivity|].
        cbn [andb]. apply andb_false_r.
      * destruct (String.eqb_spec s ""); [subst s|reflexivity].
        cbn [negb andb]. destruct (negb (JS.truthy chat)); [reflexivity|].
        cbn [andb]. apply andb_false_r.
    + destruct (negb (JS.truthy chat)); [reflexivity|]. apply andb_false_r.
  - destruct (JS.nullish echo false); [discriminate|].
    destruct (JS.truthy status && _); [discriminate|].
    destruct (JS.truthy chat) eqn:Hchat; [|discriminate]. cbn [negb].
    destruct (length answered =? 0)%nat; [discriminate|].
    apply truthy_Some in Hchat. destruct Hchat as (c & -> & Hc).
    cbn [JS.includesOption]. intros Hin. apply includes_In in Hin.
    exists c. repeat split; assumption.
  - destruct (JS.truthy chat) eqn:Hchat; [|discriminate]. cbn [negb].
    apply truthy_Some in Hchat. destruct Hchat as (c & -> & Hc).
    cbn [JS.nullish]. intros H. apply andb_true_iff in H. destruct H as [_ Hin].
    apply includes_In in Hin. exists c. repeat split; assumption.
  - intros s [= ->] Hne Hin Hsent. cbn [JS.truthy JS.equals].
    apply String.eqb_neq in Hne, Hin, Hsent. rewrite Hne, Hin, Hsent. cbn [negb andb].
    split.
    + destruct (JS.nullish echo false); reflexivity.
    + destruct (negb (JS.truthy chat)); reflexivity.
  - intros [= ->]. reflexivity.
Qed.

(** The sample inbound message is answered, and so is not recorded. *)
Lemma message_is_answered_or_recorded_never_both_witness :
  exists chat,
    Route.chatId Sample.inbound = Some chat /\ chat <> "" /\ In chat Sample.allowlist.
Proof.
  apply (proj1 (proj2 (message_is_answered_or_recorded_never_both
                         Sample.inbound Sample.allowlist Sample.allowlist))).
  reflexivity.
Defined.

(** ** The route: sending a reply *)

Section SendingReplies.
Import Route.

Variable env : Env.






End SendingReplies.



(** ** The route: a whole delivery of inbound messages *)

Section Deliveries.
Import Route.

Variable env : Env.
Variable A : list string.













End Deliveries.


Section RouteToWorker.
Import Queue Worker.


End RouteToWorker.



(** ** The route: recording outbound messages *)

Section Recording.
Import Route.

Variable env : Env.
Variable A : list string.

Lemma Collected_refl st : Collected A st st [].
Proof.
  unfold Collected. split_and!; try reflexivity.
  - constructor.
  - intros mem Hmem. rewrite Hmem. destruct mem as [g s]. cbn. rewrite Nat.add_0_r.
    split; reflexivity.
  - intros key Hkey. contradiction.
Qed.

Lemma Collected_trans st st1 st2 added1 added2 :
  Collected A st st1 added1 ->
  Collected A st1 st2 added2 ->
  Collected A st st2 (added1 ++ added2).
Proof.
  intros (H1 & H2 & H3 & H4 & H5 & H6 & H7 & H8) (K1 & K2 & K3 & K4 & K5 & K6 & K7 & K8).
  split; [congruence|]. split; [congruence|]. split; [congruence|].
  split; [congruence|]. split; [congruence|].
  split; [apply Forall_app; split; assumption|]. split.
  - intros mem Hmem. destruct (H7 mem Hmem) as [Hm1 Hi1].
    destruct (K7 _ Hm1) as [Hm2 Hi2]. cbn [generated saved] in Hm2, Hi2.
    rewrite Hm2, length_app, map_app, Hi1, Hi2, seq_app, Nat.add_assoc.
    split; reflexivity.
  - intros key Hkey.
    destruct (decide (StopFlag.keys (stopFlags st1) !! key
                      = StopFlag.keys (stopFlags st) !! key)) as [Heq|Hne].
    + rewrite <- Heq in Hkey. destruct (K8 key Hkey) as (service & chat & Hs & Hc & Hk).
      exists service, chat. rewrite <- H1. repeat split; assumption.
    + apply (H8 key Hne).
Qed.

Lemma logR_Collected level text st : Collected A st (snd (logR level text st)) [].
Proof. apply (Collected_refl st). Qed.

(** A command for the store, for a chat of the allowlist. *)
Lemma storeCall_Collected service chat run st :
  redisStopFlagService st = Some service ->
  In chat A ->
  (forall db key, key <> StopFlag.buildKey service chat -> run db !! key = db !! key) ->
  Collected A st (snd (storeCall (StopFlag.call run) st)) [].
Proof.
  intros Hservice Hchat Hrun.
  destruct (Collected_refl st) as (H1 & H2 & H3 & H4 & H5 & H6 & H7 & _).
  unfold storeCall.
  pose proof (call_keys run (stopFlags st)) as Hkeys.
  destruct (StopFlag.call run (stopFlags st)) as [resolved flags].
  cbn [fst snd] in *. unfold Collected. split_and!; try assumption.
  intros key Hkey. cbn [stopFlags] in Hkey.
  exists service, chat. split; [exact Hservice|]. split; [exact Hchat|].
  destruct (decide (key = StopFlag.buildKey service chat)) as [Heq|Hne]; [exact Heq|].
  exfalso. apply Hkey. rewrite Hkeys. destruct resolved; [apply Hrun, Hne|reflexivity].
Qed.

Lemma resolveOutboundMessageText_nonempty message text :
  resolveOutboundMessageText message = Some text -> text <> "".
Proof.
  unfold resolveOutboundMessageText.
  destruct (JS.nonEmpty (JS.trimmedOrEmpty (Route.text message))) eqn:Hne.
  - intros [= <-]. apply nonEmpty_true, Hne.
  - destruct (JS.truthy (contentUri message)); [|discriminate].
    intros [= <-]. discriminate.
Qed.

(** What passing the filter tells of the chat id. *)
Lemma isOutbound_chat message :
  isOutbound A message = true ->
  In (JS.nullish (chatId message) "") A /\ JS.nullish (chatId message) "" <> "".
Proof.
  unfold isOutbound, shouldPersistOutboundMessage. intros H.
  apply andb_true_iff in H. destruct H as [Hpersist Hin].
  apply includes_In in Hin. split; [exact Hin|].
  destruct (JS.truthy (chatId message)) eqn:Hchat; [|discriminate].
  apply truthy_Some in Hchat. destruct Hchat as (c & -> & Hc). exact Hc.
Qed.

Lemma push_Collected message text st mem :
  isOutbound A message = true ->
  text <> "" ->
  memory st = Some mem ->
  fst (generateId st) = generated mem
  /\ Collected A st (snd (generateId st)) [recordOf env message text (generated mem)].
Proof.
  intros Hout Htext Hmem. destruct (isOutbound_chat message Hout) as [Hin Hchat].
  unfold generateId. rewrite Hmem. cbn [fst snd]. split; [reflexivity|].
  unfold Collected. split_and!; try reflexivity.
  - constructor; [|constructor]. unfold historyRecord. split_and!; try assumption.
    + reflexivity.
    + reflexivity.
    + exists text. split; [reflexivity|exact Htext].
  - intros mem' Hmem'. rewrite Hmem in Hmem'. injection Hmem' as <-. cbn [length memory].
    rewrite Nat.add_1_r. split; reflexivity.
  - intros key Hkey. contradiction.
Qed.

Lemma collectRecords_Collected outbound :
  Forall (fun message => isOutbound A message = true) outbound ->
  forall records st mem,
    memory st = Some mem ->
    exists added,
      fst (collectRecords env outbound records st) = records ++ added
      /\ Collected A st (snd (collectRecords env outbound records st)) added
      /\ (length added <= length outbound)%nat.
Proof.
  induction 1 as [|m rest Hout _ IH]; intros records st mem Hmem.
  - exists []. cbn. rewrite app_nil_r. split; [reflexivity|].
    split; [apply Collected_refl|lia].
  - assert (Hskip : forall st1,
              Collected A st st1 [] ->
              exists added,
                fst (collectRecords env rest records st1) = records ++ added
                /\ Collected A st (snd (collectRecords env rest records st1)) added
                /\ (length added <= length (m :: rest))%nat).
    { intros st1 H1.
      destruct (proj1 (proj2 (proj2 (proj2 (proj2 (proj2 (proj2 H1)))))) mem Hmem)
        as [Hmem1 _].
      cbn [length] in Hmem1. rewrite Nat.add_0_r in Hmem1.
      destruct (IH records st1 _ Hmem1) as (added & Hres & Hcol & Hlen).
      exists added. split; [exact Hres|]. split; [|cbn [length]; lia].
      exact (Collected_trans st st1 _ [] added H1 Hcol). }
    cbn [collectRecords].
    destruct (resolveOutboundMessageText m) as [text|] eqn:Htext.
    2:{ rewrite bind_run. apply Hskip, logR_Collected. }
    pose proof (resolveOutboundMessageText_nonempty m text Htext) as Hne.
    destruct (isOutbound_chat m Hout) as [Hin Hchat].
    assert (Hpush :
      exists added,
        fst ((id <- generateId ;;
              collectRecords env rest (records ++ [recordOf env m text id])) st)
        = records ++ added
        /\ Collected A st
             (snd ((id <- generateId ;;
                    collectRecords env rest (records ++ [recordOf env m text id])) st))
             added
        /\ (length added <= length (m :: rest))%nat).
    { rewrite bind_run.
      destruct (push_Collected m text st mem Hout Hne Hmem) as [Hid Hcol1].
      rewrite Hid.
      destruct (proj1 (proj2 (proj2 (proj2 (proj2 (proj2 (proj2 Hcol1)))))) mem Hmem)
        as [Hmem1 _].
      destruct (IH (records ++ [recordOf env m text (generated mem)])
                  (snd (generateId st)) _ Hmem1) as (added & Hres & Hcol & Hlen).
      exists (recordOf env m text (generated mem) :: added).
      split; [rewrite Hres, <- app_assoc; reflexivity|].
      split; [|cbn [length]; lia].
      exact (Collected_trans st _ _ [_] added Hcol1 Hcol). }
    destruct (sourceOf m); [exact Hpush|].
    destruct (redisStopFlagService st) as [service|] eqn:Hservice; [|exact Hpush].
    destruct (String.eqb (JS.toLowerCase (JS.trim text)) "/stop").
    + rewrite 2!bind_run. apply Hskip.
      eapply (Collected_trans st _ _ [] []).
      * apply (storeCall_Collected service (JS.nullish (chatId m) "")
                 (insert (StopFlag.buildKey service (JS.nullish (chatId m) "")) "stop")
                 st Hservice Hin).
        intros db key Hkey. apply lookup_insert_ne. congruence.
      * destruct (fst (storeCall _ st)); apply logR_Collected.
    + destruct (String.eqb (JS.toLowerCase (JS.trim text)) "/start"); [|exact Hpush].
      rewrite 2!bind_run. apply Hskip.
      eapply (Collected_trans st _ _ [] []).
      * apply (storeCall_Collected service (JS.nullish (chatId m) "")
                 (delete (StopFlag.buildKey service (JS.nullish (chatId m) "")))
                 st Hservice Hin).
        intros db key Hkey. apply lookup_delete_ne. congruence.
      * destruct (fst (storeCall _ st)); apply logR_Collected.
Qed.

End Recording.

(** What [persistOutboundMessages] does to the state. *)
Lemma persistOutboundMessages_effects
    (env : Route.Env) (messages : list Route.WazzupMessage) (allowed : list string)
    (st : Route.State) :
  let st' := snd (Route.persistOutboundMessages env messages allowed st) in
  Route.queue st' = Route.queue st
  /\ Route.posted st' = Route.posted st
  /\ Route.generated_for st' = Route.generated_for st
  /\ (Route.memory st = None ->
      Route.memory st' = None /\ Route.stopFlags st' = Route.stopFlags st)
  /\ (forall mem,
        Route.memory st = Some mem ->
        exists records,
          Route.memory st'
          = Some (Route.mkMemory (Route.generated mem + length records)
                    (Route.saved mem ++ records))
          /\ Forall (Route.historyRecord allowed) records
          /\ (length records
              <= length (List.filter (Route.isOutbound allowed) messages))%nat
          /\ map Route.id records = seq (Route.generated mem) (length records))
  /\ (forall key,
        StopFlag.keys (Route.stopFlags st') !! key
        <> StopFlag.keys (Route.stopFlags st) !! key ->
        exists service chat,
          Route.redisStopFlagService st = Some service
          /\ In chat allowed
          /\ key = StopFlag.buildKey service chat).
Proof.
  intros st'. subst st'. unfold Route.persistOutboundMessages. cbv zeta.
  assert (Hnothing :
    forall level text,
      let st' := snd (Route.logR level text st) in
      Route.queue st' = Route.queue st
      /\ Route.posted st' = Route.posted st
      /\ Route.generated_for st' = Route.generated_for st
      /\ (Route.memory st = None ->
          Route.memory st' = None /\ Route.stopFlags st' = Route.stopFlags st)
      /\ (forall mem,
            Route.memory st = Some mem ->
            exists records,
              Route.memory st'
              = Some (Route.mkMemory (Route.generated mem + length records)
                        (Route.saved mem ++ records))
              /\ Forall (Route.historyRecord allowed) records
              /\ (length records
                  <= length (List.filter (Route.isOutbound allowed) messages))%nat
              /\ map Route.id records = seq (Route.generated mem) (length records))
      /\ (forall key,
            StopFlag.keys (Route.stopFlags st') !! key
            <> StopFlag.keys (Route.stopFlags st) !! key ->
            exists service chat,
              Route.redisStopFlagService st = Some service
              /\ In chat allowed
              /\ key = StopFlag.buildKey service chat)).
  { intros level text. cbn. split_and!; try reflexivity.
    - intros Hmem. split; [exact Hmem|reflexivity].
    - intros mem Hmem. exists []. rewrite Hmem. destruct mem as [g s]. cbn.
      rewrite Nat.add_0_r, app_nil_r. split_and!; [reflexivity|constructor|lia|reflexivity].
    - intros key Hkey. contradiction. }
  destruct (length (List.filter (Route.isOutbound allowed) messages) =? 0)%nat.
  { destruct (Hnothing info "") as (H1 & H2 & H3 & H4 & H5 & H6). cbn in *.
    split_and!; assumption. }
  destruct (Route.memory st) as [mem|] eqn:Hmem; [|apply Hnothing].
  rewrite bind_run.
  destruct (collectRecords_Collected env allowed
              (List.filter (Route.isOutbound allowed) messages))
    with (records := @nil Route.MastraMessageV2) (st := st) (mem := mem)
    as (added & Hres & (H1 & H2 & H3 & H4 & H5 & H6 & H7 & H8) & Hlen).
  { apply List.Forall_forall. intros m Hin. apply List.filter_In in Hin. apply Hin. }
  { exact Hmem. }
  cbn [app] in Hres. rewrite Hres.
  destruct (H7 mem Hmem) as [Hmem1 Hids].
  set (st1 := snd (Route.collectRecords env _ [] st)) in *.
  assert (Hsaved :
    let st2 := snd (Route.saveRecords added st1) in
    Route.queue st2 = Route.queue st1
    /\ Route.posted st2 = Route.posted st1
    /\ Route.generated_for st2 = Route.generated_for st1
    /\ Route.stopFlags st2 = Route.stopFlags st1
    /\ Route.memory st2
       = Some (Route.mkMemory (Route.generated mem + length added)
                 (Route.saved mem ++ added))).
  { unfold Route.saveRecords. destruct added as [|record added].
    - cbn. rewrite Hmem1. cbn. rewrite app_nil_r. split_and!; reflexivity.
    - cbn [length Nat.eqb]. rewrite bind_run. unfold Route.saveMessages.
      rewrite Hmem1. cbn. split_and!; reflexivity. }
  cbv zeta in Hsaved. destruct Hsaved as (S1 & S2 & S3 & S4 & S5).
  split; [congruence|]. split; [congruence|]. split; [congruence|].
  split; [discriminate|]. split.
  - intros mem' [= <-]. exists added. split_and!; assumption.
  - intros key Hkey. rewrite S4 in Hkey. apply (H8 key Hkey).
Qed.

(** X17.  What [persistOutboundMessages] records.  It never touches the
    queue, the POSTs or the agent.  Without a memory it does nothing at
    all: no record, and no stop command reaches the store.  With a memory
    it saves records only at the end of the history, at most one for each
    message that passed the filter, each for a chat of the allowlist, with
    role assistant, resource wazzup and one text part that is not empty,
    and each under an identifier the memory generated for it, in the order
    of the calls.  A stop flag that changes is the flag of a chat of the
    allowlist in the store of the module variable; without that store no
    flag changes. *)
Theorem persistOutboundMessages_records_only_the_allowlist
    (env : Route.Env) (messages : list Route.WazzupMessage) (allowed : list string)
    (st : Route.State) :
  let st' := snd (Route.persistOutboundMessages env messages allowed st) in
  Route.queue st' = Route.queue st
  /\ Route.posted st' = Route.posted st
  /\ Route.generated_for st' = Route.generated_for st
  /\ (Route.memory st = None ->
      Route.memory st' = None /\ Route.stopFlags st' = Route.stopFlags st)
  /\ (forall mem,
        Route.memory st = Some mem ->
        exists records,
          Route.memory st'
          = Some (Route.mkMemory (Route.generated mem + length records)
                    (Route.saved mem ++ records))
          /\ Forall (Route.historyRecord allowed) records
          /\ (length records
              <= length (List.filter (Route.isOutbound allowed) messages))%nat
          /\ map Route.id records = seq (Route.generated mem) (length records))
  /\ (forall key,
        StopFlag.keys (Route.stopFlags st') !! key
        <> StopFlag.keys (Route.stopFlags st) !! key ->
        exists service chat,
          Route.redisStopFlagService st = Some service
          /\ In chat allowed
          /\ key = StopFlag.buildKey service chat).
Proof. apply persistOutboundMessages_effects. Qed.

(** A message the sample operator sent in an allowlisted chat, on the
    sample route: the history grows by records of the allowlist. *)
Lemma persistOutboundMessages_records_only_the_allowlist_witness :
  let messages := [Sample.outbound "sent" "Здравствуйте"] in
  let st' := snd (Route.persistOutboundMessages Sample.env messages Sample.allowlist
                    (Sample.route None)) in
  exists records,
    Route.memory st' = Some (Route.mkMemory (0 + length records) ([] ++ records))
    /\ Forall (Route.historyRecord Sample.allowlist) records
    /\ (length records
        <= length (List.filter (Route.isOutbound Sample.allowlist) messages))%nat
    /\ map Route.id records = seq 0 (length records).
Proof.
  intros messages st'.
  apply (proj1 (proj2 (proj2 (proj2 (proj2
           (persistOutboundMessages_records_only_the_allowlist Sample.env messages
              Sample.allowlist (Sample.route None))))))
           (Route.mkMemory 0 []) eq_refl).
Defined.

(** ** The lazy connection: every call is answered once *)

Section ConnectionAccounts.
Import Connect.

Lemma operations_app events more :
  operations (events ++ more) = operations events ++ operations more.
Proof.
  induction events as [|e events IH]; [reflexivity|].
  destruct e; cbn [app operations]; rewrite IH; reflexivity.
Qed.

Lemma run_snoc events e : run (events ++ [e]) = step (run events) e.
Proof. unfold run. rewrite fold_left_app. reflexivity. Qed.

(** The calls suspended on a promise and the others are all the
    suspended calls. *)
Lemma waiters_others p c :
  waiters p c ++ map fst (others p c) ≡ₚ map fst (awaiting c).
Proof.
  unfold waiters, others. induction (awaiting c) as [|[op q] rest IH]; [reflexivity|].
  cbn [List.filter snd]. destruct (Nat.eqb q p); cbn [negb map fst app].
  - constructor. exact IH.
  - rewrite <- Permutation_middle. constructor. exact IH.
Qed.

(** The calls of a client: suspended, returned or thrown. *)
Let calls (c : Client) : list Call := map fst (awaiting c) ++ returned c ++ thrown c.

Lemma calls_step c e :
  calls (step c e) ≡ₚ calls c ++ operations [e].
Proof.
  unfold calls. destruct e as [op| |]; cbn [step operations].
  - unfold ensureClient. destruct (isOpen c); [|destruct (connectPromise c)];
      cbn [awaiting returned thrown]; rewrite ?map_app; cbn [map fst];
      solve_Permutation.
  - rewrite app_nil_r. unfold connected. destruct (pending c) as [p|]; [|reflexivity].
    cbn [awaiting returned thrown]. rewrite <- (waiters_others p c). solve_Permutation.
  - rewrite app_nil_r. unfold failed. destruct (pending c) as [p|]; [|reflexivity].
    cbn [awaiting returned thrown]. rewrite <- (waiters_others p c). solve_Permutation.
Qed.

Lemma calls_run events : calls (run events) ≡ₚ operations events.
Proof.
  induction events as [|e events IH] using rev_ind; [reflexivity|].
  rewrite run_snoc, calls_step, operations_app, IH. reflexivity.
Qed.

(** [connect()] is called again only after a failure. *)
Lemma connects_run events :
  let c := run events in
  (connects c
   + (if isOpen c then 0 else match pending c with Some _ => 0 | None => 1 end)
   <= S (length (List.filter isFailed events)))%nat.
Proof.
  induction events as [|e events IH] using rev_ind; [cbn; lia|].
  cbv zeta in *. rewrite run_snoc, List.filter_app, length_app.
  pose proof (consistent_run events) as (Hpend & Hwait & Hopen & Hclosed).
  destruct e as [op| |]; cbn [step List.filter isFailed length].
  - unfold ensureClient. destruct (isOpen (run events)) eqn:Eopen.
    + cbn [connects isOpen pending]. lia.
    + destruct (pending (run events)) as [p|] eqn:Epend.
      * destruct (Hpend p eq_refl) as (Hpromise & _). rewrite Hpromise.
        cbn [connects isOpen pending]. rewrite ?Eopen, ?Epend. lia.
      * rewrite (Hclosed eq_refl eq_refl). cbn [connects isOpen pending].
        rewrite ?Eopen. lia.
  - unfold connected. destruct (pending (run events)) as [p|] eqn:Epend.
    + destruct (Hpend p eq_refl) as (_ & Eopen & _). rewrite Eopen in IH.
      cbn [connects isOpen pending]. lia.
    + rewrite ?Epend. destruct (isOpen (run events)); lia.
  - unfold failed. destruct (pending (run events)) as [p|] eqn:Epend.
    + destruct (Hpend p eq_refl) as (_ & Eopen & _). rewrite Eopen in IH.
      cbn [connects isOpen pending]. lia.
    + rewrite ?Epend. destruct (isOpen (run events)); lia.
Qed.

(** A call has returned only on an open client; a call has thrown only
    after a failure. *)
Lemma answers_run events :
  let c := run events in
  (returned c <> [] -> isOpen c = true)
  /\ (thrown c <> [] -> In Failed events).
Proof.
  induction events as [|e events [IHr IHt]] using rev_ind.
  - cbn. split; intros H; contradiction.
  - cbv zeta in *. rewrite run_snoc.
    pose proof (consistent_run events) as (Hpend & Hwait & Hopen & Hclosed).
    destruct e as [op| |]; cbn [step].
    + unfold ensureClient. destruct (isOpen (run events)) eqn:Eopen.
      * cbn [returned thrown isOpen]. split; [intros _; reflexivity|].
        intros H. apply in_or_app. left. apply IHt, H.
      * destruct (connectPromise (run events)); cbn [returned thrown isOpen];
          (split; [intros H; specialize (IHr H); congruence|
                   intros H; apply in_or_app; left; apply IHt, H]).
    + unfold connected. destruct (pending (run events)) as [p|].
      * cbn [returned thrown isOpen]. split; [reflexivity|].
        intros H. apply in_or_app. left. apply IHt, H.
      * split; [exact IHr|]. intros H. apply in_or_app. left. apply IHt, H.
    + split; [|intros _; apply in_or_app; right; left; reflexivity].
      unfold failed. destruct (pending (run events)) as [p|] eqn:Epend; [|exact IHr].
      cbn [returned isOpen]. intros H. specialize (IHr H).
      destruct (Hpend p eq_refl) as (_ & Eopen & _). congruence.
Qed.

(** An open client stays open and never connects again. *)
Lemma open_continue more :
  forall c,
    isOpen c = true -> pending c = None ->
    isOpen (continue c more) = true
    /\ connects (continue c more) = connects c
    /\ thrown (continue c more) = thrown c
    /\ returned (continue c more) = returned c ++ operations more.
Proof.
  unfold continue. induction more as [|e more IH]; intros c Hopen Hpend.
  - cbn. rewrite app_nil_r. repeat split; assumption.
  - cbn [fold_left].
    assert (Hstep : isOpen (step c e) = true /\ pending (step c e) = None
                    /\ connects (step c e) = connects c
                    /\ thrown (step c e) = thrown c
                    /\ returned (step c e) = returned c ++ operations [e]).
    { destruct e as [op| |]; cbn [step operations].
      - unfold ensureClient. rewrite Hopen. cbn. repeat split; assumption.
      - unfold connected. rewrite Hpend, app_nil_r. repeat split; assumption.
      - unfold failed. rewrite Hpend, app_nil_r. repeat split; assumption. }
    destruct Hstep as (H1 & H2 & H3 & H4 & H5).
    destruct (IH (step c e) H1 H2) as (K1 & K2 & K3 & K4).
    rewrite K2, K3, K4, H3, H4, H5, <- app_assoc.
    split; [exact K1|]. split; [reflexivity|]. split; [reflexivity|].
    f_equal. destruct e; reflexivity.
Qed.

End ConnectionAccounts.

(** X18.  Every call of [ensureClient] is answered once, and [connect()]
    is tried again only after a failure.  In every run of calls, successes
    and failures of the connection: the calls that are suspended, have
    returned or have thrown are exactly the calls made, none lost and none
    answered twice; [connect()] was called at most once more than there
    were failures; a call has returned only on an open client and thrown
    only after a failure; no call is suspended when no [connect()] is in
    progress.  Once the client is open, however the run goes on, it stays
    open, [connect()] is never called again, no call throws, and every
    further call returns. *)
Theorem ensureClient_answers_every_call_once (events more : list Connect.Event) :
  let c := Connect.run events in
  map fst (Connect.awaiting c) ++ Connect.returned c ++ Connect.thrown c
    ≡ₚ Connect.operations events
  /\ (Connect.connects c <= S (length (List.filter Connect.isFailed events)))%nat
  /\ (Connect.returned c <> [] -> Connect.isOpen c = true)
  /\ (Connect.thrown c <> [] -> In Connect.Failed events)
  /\ (Connect.pending c = None -> Connect.awaiting c = [])
  /\ (Connect.isOpen c = true ->
      let c' := Connect.continue c more in
      Connect.isOpen c' = true
      /\ Connect.connects c' = Connect.connects c
      /\ Connect.thrown c' = Connect.thrown c
      /\ Connect.returned c' = Connect.returned c ++ Connect.operations more).
Proof.
  intros c. subst c.
  pose proof (consistent_run events) as (Hpend & Hwait & Hopen & Hclosed).
  split; [apply calls_run|]. split; [|split; [|split; [|split]]].
  - pose proof (connects_run events) as H. cbv zeta in H. lia.
  - apply answers_run.
  - apply answers_run.
  - intros Hnone. destruct (Connect.awaiting (Connect.run events)) as [|[op q] rest] eqn:E;
      [reflexivity|].
    specialize (Hwait op q (or_introl eq_refl)). congruence.
  - intros Eopen. apply open_continue; [exact Eopen|apply Hopen, Eopen].
Qed.

(** Two calls share an attempt that fails, a third call starts an
    attempt that succeeds, and two more calls follow. *)
Lemma ensureClient_answers_every_call_once_witness :
  let events := [Connect.Operation 1%nat; Connect.Operation 2%nat; Connect.Failed;
                 Connect.Operation 3%nat; Connect.Connected] in
  let more := [Connect.Operation 4%nat; Connect.Failed; Connect.Operation 5%nat] in
  let c' := Connect.continue (Connect.run events) more in
  Connect.connects c' = 2%nat
  /\ Connect.thrown c' = [1%nat; 2%nat]
  /\ Connect.returned c' = [3%nat; 4%nat; 5%nat].
Proof.
  intros events more c'.
  destruct (proj2 (proj2 (proj2 (proj2 (proj2
              (ensureClient_answers_every_call_once events more))))) eq_refl)
    as (_ & H2 & H3 & H4).
  fold c' in H2, H3, H4. rewrite H2, H3, H4. repeat split.
Defined.

(** ** The route: the handler *)

Section Handler.
Import Route.

Variable env : Env.
Variable agent : bool.

Let allowed := resolveTargetChatIds (WAZZUP_TARGET_CHAT_IDS env).



End Handler.



(** ** The lazy connection after disconnect() *)

Section Disconnection.
Import Connect.

(** An open client remembers the promise of the [connect()] that opened it. *)
Lemma open_remembers events :
  isOpen (run events) = true -> exists p, connectPromise (run events) = Some p.
Proof.
  induction events as [|e events IH] using rev_ind; [discriminate|].
  rewrite run_snoc.
  pose proof (consistent_run events) as (Hpend & _ & _ & _).
  destruct e as [op| |]; cbn [step].
  - unfold ensureClient. destruct (isOpen (run events)) eqn:Eopen.
    + cbn [isOpen connectPromise]. intros _. apply IH. reflexivity.
    + destruct (connectPromise (run events)); cbn [isOpen]; congruence.
  - unfold connected. destruct (pending (run events)) as [p|] eqn:Epend; [|exact IH].
    cbn [isOpen connectPromise]. intros _. exists p. apply (Hpend p eq_refl).
  - unfold failed. destruct (pending (run events)) as [p|]; [discriminate|exact IH].
Qed.

(** The client once a [connect()] has succeeded: a promise is
    remembered and none is in progress. *)
Let settled (c : Client) : Prop := (exists p, connectPromise c = Some p) /\ pending c = None.

Lemma settled_live c l :
  settled c ->
  settled (live c l)
  /\ connects (live c l) = connects c
  /\ thrown (live c l) = thrown c
  /\ map fst (awaiting (live c l)) ++ returned (live c l)
     ≡ₚ map fst (awaiting c) ++ returned c ++ calls [l].
Proof.
  intros [[p Hp] Hpend]. unfold settled.
  destruct l as [[op| |]| |]; cbn [live step calls flat_map app].
  - unfold ensureClient. rewrite Hp. destruct (isOpen c);
      cbn [connectPromise pending connects thrown awaiting returned];
      rewrite ?map_app; cbn [map fst];
      (split; [split; [eexists; reflexivity|assumption]|]);
      (split; [reflexivity|]); (split; [reflexivity|]); solve_Permutation.
  - unfold connected. rewrite Hpend, !app_nil_r.
    split; [split; [eexists; eassumption|assumption]|]. repeat split; reflexivity.
  - unfold failed. rewrite Hpend, !app_nil_r.
    split; [split; [eexists; eassumption|assumption]|]. repeat split; reflexivity.
  - unfold disconnect. rewrite !app_nil_r. destruct (isOpen c);
      cbn [connectPromise pending connects thrown awaiting returned];
      (split; [split; [eexists; eassumption|assumption]|]); repeat split; reflexivity.
  - unfold resumed. rewrite Hpend, !app_nil_r.
    cbn [connectPromise pending connects thrown awaiting returned map app].
    split; [split; [eexists; eassumption|reflexivity]|].
    split; [reflexivity|]. split; [reflexivity|]. solve_Permutation.
Qed.

Lemma settled_run more :
  forall c,
    settled c ->
    settled (fold_left live more c)
    /\ connects (fold_left live more c) = connects c
    /\ thrown (fold_left live more c) = thrown c
    /\ map fst (awaiting (fold_left live more c)) ++ returned (fold_left live more c)
       ≡ₚ map fst (awaiting c) ++ returned c ++ calls more.
Proof.
  induction more as [|l more IH]; intros c Hc.
  - cbn. rewrite !app_nil_r. split; [exact Hc|]. repeat split; reflexivity.
  - cbn [fold_left]. destruct (settled_live c l Hc) as (H1 & H2 & H3 & H4).
    destruct (IH _ H1) as (K1 & K2 & K3 & K4).
    split; [exact K1|]. split; [congruence|]. split; [congruence|].
    rewrite K4.
    assert (Hcons : calls (l :: more) = calls [l] ++ calls more)
      by (unfold calls; cbn [flat_map]; rewrite app_nil_r; reflexivity).
    rewrite Hcons.
    rewrite !app_assoc. apply Permutation_app_tail.
    rewrite <- !app_assoc. exact H4.
Qed.

Lemma disconnected_call c op :
  isOpen c = true -> settled c -> awaiting c = [] ->
  let closed := disconnect c in
  let c' := resumed (ensureClient closed op) in
  isOpen closed = false
  /\ isOpen c' = false
  /\ connects c' = connects c
  /\ awaiting c' = []
  /\ returned c' = returned c ++ [op]
  /\ thrown c' = thrown c.
Proof.
  intros Hopen [[p Hp] Hpend] Hnone. cbv zeta. unfold disconnect. rewrite Hopen.
  unfold ensureClient. cbn [isOpen connectPromise]. rewrite Hp.
  unfold resumed. cbn [pending]. rewrite Hpend, Hnone. cbn. repeat split.
Qed.

End Disconnection.

(** X20.  After [disconnect()] the connection is never made again.  Once
    a [connect()] has succeeded, whatever follows - calls, [disconnect()],
    settled promises - [connect()] is not called again and no call of
    [ensureClient] throws: every call returns or waits to be resumed.  In
    particular a call of [ensureClient] after [disconnect()] finds the
    client closed, awaits the promise of the first connection, which is
    fulfilled, and returns with the client still closed. *)
Theorem ensureClient_does_not_reconnect_after_disconnect
    (events : list Connect.Event) (more : list Connect.Life) (op : Connect.Call) :
  let c := Connect.run events in
  Connect.isOpen c = true ->
  (let after := fold_left Connect.live more c in
   Connect.connects after = Connect.connects c
   /\ Connect.thrown after = Connect.thrown c
   /\ map fst (Connect.awaiting after) ++ Connect.returned after
      ≡ₚ Connect.returned c ++ Connect.calls more)
  /\ (let closed := Connect.disconnect c in
      let c' := Connect.resumed (Connect.ensureClient closed op) in
      Connect.isOpen closed = false
      /\ Connect.isOpen c' = false
      /\ Connect.connects c' = Connect.connects c
      /\ Connect.awaiting c' = []
      /\ Connect.returned c' = Connect.returned c ++ [op]
      /\ Connect.thrown c' = Connect.thrown c).
Proof.
  intros c Hopen. subst c.
  pose proof (consistent_run events) as (_ & Hwait & Hpending & _).
  pose proof (Hpending Hopen) as Hpend.
  assert (Hnone : Connect.awaiting (Connect.run events) = []).
  { destruct (Connect.awaiting (Connect.run events)) as [|[waiting q] rest] eqn:E;
      [reflexivity|].
    specialize (Hwait waiting q (or_introl eq_refl)). congruence. }
  assert (Hsettled : (exists p, Connect.connectPromise (Connect.run events) = Some p)
                     /\ Connect.pending (Connect.run events) = None)
    by (split; [apply open_remembers, Hopen|exact Hpend]).
  split.
  - destruct (settled_run more _ Hsettled) as (_ & H2 & H3 & H4).
    rewrite Hnone in H4. cbn [map app] in H4. repeat split; assumption.
  - apply disconnected_call; assumption.
Qed.

(** A call connects, the service is disconnected, and two more calls
    come: one [connect()] in all, and the three calls have returned. *)
Lemma ensureClient_does_not_reconnect_after_disconnect_witness :
  let events := [Connect.Operation 1%nat; Connect.Connected] in
  let more := [Connect.Disconnect; Connect.Live (Connect.Operation 2%nat); Connect.Resume;
               Connect.Live (Connect.Operation 3%nat); Connect.Resume] in
  let after := fold_left Connect.live more (Connect.run events) in
  Connect.connects after = 1%nat
  /\ Connect.isOpen after = false
  /\ Connect.returned after = [1%nat; 2%nat; 3%nat].
Proof.
  intros events more after.
  destruct (proj1 (ensureClient_does_not_reconnect_after_disconnect events more 0%nat
                     eq_refl)) as (H1 & _).
  fold after in H1. rewrite H1. repeat split.
Defined.

(** ** The life of the worker *)

Section WorkerLife.
Import Lifecycle.

Lemma existsb_In i ls : existsb (Nat.eqb i) ls = true <-> In i ls.
Proof.
  rewrite existsb_exists. split.
  - intros (x & Hin & Heq). apply Nat.eqb_eq in Heq. subst x. exact Hin.
  - intros Hin. exists i. split; [exact Hin|apply Nat.eqb_refl].
Qed.

Lemma In_others i l ls :
  In l (List.filter (fun q => negb (Nat.eqb q i)) ls) <-> In l ls /\ l <> i.
Proof.
  rewrite List.filter_In. split; intros [H1 H2]; (split; [exact H1|]).
  - intros ->. rewrite Nat.eqb_refl in H2. discriminate.
  - apply Nat.eqb_neq in H2. rewrite H2. reflexivity.
Qed.

Lemma stoppedAll_fields n :
  forall w,
    isRunning (stoppedAll n w) = isRunning w
    /\ processingPromise (stoppedAll n w) = processingPromise w
    /\ started (stoppedAll n w) = started w
    /\ loops (stoppedAll n w) = loops w
    /\ stopping (stoppedAll n w) = stopping w
    /\ disconnects (stoppedAll n w) = (disconnects w + n)%nat.
Proof.
  induction n as [|n IH]; intros w; cbn [stoppedAll].
  - rewrite Nat.add_0_r. repeat split.
  - destruct (IH (stopped w)) as (H1 & H2 & H3 & H4 & H5 & H6).
    rewrite H1, H2, H3, H4, H5, H6. cbn. repeat split. lia.
Qed.

Lemma sound_idle : sound idle.
Proof.
  unfold sound, idle. cbn. split_and!.
  - discriminate.
  - intros p [].
  - intros l [].
  - constructor.
  - discriminate.
Qed.

Lemma sound_start w : sound w -> sound (start w).
Proof.
  intros (H1 & H2 & H3 & H4 & H5). unfold start.
  destruct (isRunning w) eqn:Erun; unfold sound; cbn; split_and!; try assumption.
  - intros _. exists (started w). split; [reflexivity|]. apply in_or_app. right. left.
    reflexivity.
  - intros p Hp. apply in_or_app. left. apply H2, Hp.
  - intros l Hl. apply in_app_or in Hl. destruct Hl as [Hl|[<-|[]]]; [|lia].
    specialize (H3 l Hl). lia.
  - apply NoDup_app. split_and!.
    + exact H4.
    + intros l Hl Hin. apply list_elem_of_In in Hl.
      apply list_elem_of_singleton in Hin. subst l. specialize (H3 _ Hl). lia.
    + apply NoDup_singleton.
  - intros _ p [= <-] Hin. specialize (H3 _ (H2 _ Hin)). lia.
Qed.

Lemma sound_stop w : sound w -> sound (stop w).
Proof.
  intros Hw. pose proof Hw as (H1 & H2 & H3 & H4 & H5). unfold stop.
  destruct (isRunning w) eqn:Erun; cbn [negb]; [|exact Hw].
  destruct (H1 eq_refl) as (p & Hp & Hin). rewrite Hp.
  rewrite (proj2 (existsb_In p (loops w)) Hin).
  unfold sound; cbn; split_and!; try assumption; try discriminate.
  intros q Hq. apply in_app_or in Hq. destruct Hq as [Hq|[<-|[]]]; [apply H2, Hq|exact Hin].
Qed.

Lemma sound_check i w : sound w -> sound (check i w).
Proof.
  intros Hw. pose proof Hw as (H1 & H2 & H3 & H4 & H5). unfold check.
  destruct (existsb (Nat.eqb i) (loops w)); cbn [negb]; [|exact Hw].
  destruct (isRunning w) eqn:Erun; [exact Hw|].
  destruct (stoppedAll_fields (length (List.filter (Nat.eqb i) (stopping w)))
              (mkWorker false (processingPromise w) (started w)
                 (List.filter (fun l => negb (Nat.eqb l i)) (loops w))
                 (List.filter (fun p => negb (Nat.eqb p i)) (stopping w))
                 (disconnects w) (log w)))
    as (E1 & E2 & E3 & E4 & E5 & _).
  cbn in E1, E2, E3, E4, E5.
  unfold sound. rewrite E1, E2, E3, E4, E5. split_and!.
  - discriminate.
  - intros p Hp. apply In_others in Hp. apply In_others. destruct Hp as [Hp Hne].
    split; [apply H2, Hp|exact Hne].
  - intros l Hl. apply In_others in Hl. apply H3, Hl.
  - apply NoDup_ListNoDup, List.NoDup_filter, NoDup_ListNoDup, H4.
  - discriminate.
Qed.

Lemma sound_run events : forall w, sound w -> sound (run w events).
Proof.
  unfold run. induction events as [|e events IH]; intros w Hw; [exact Hw|].
  cbn [fold_left]. apply IH. destruct e; cbn [step].
  - apply sound_start, Hw.
  - apply sound_stop, Hw.
  - apply sound_check, Hw.
Qed.

Lemma sound_new enabled : sound (new enabled).
Proof.
  unfold new. destruct enabled as [[]|]; try apply sound_start; apply sound_idle.
Qed.

Lemma orderly_run events :
  forall w,
    (length (loops w) <= 1)%nat -> orderly w events ->
    (length (loops (run w events)) <= 1)%nat.
Proof.
  unfold run. induction events as [|e events IH]; intros w Hw Horder; [exact Hw|].
  cbn [fold_left]. destruct Horder as [Hnow Hrest]. apply IH; [|exact Hrest].
  destruct e as [| |i]; cbn [step].
  - unfold start. destruct (isRunning w); [exact Hw|]. cbn [loops].
    destruct Hnow as [Hrun|Hnone]; [discriminate|]. rewrite Hnone. cbn. lia.
  - unfold stop. destruct (isRunning w); cbn [negb]; [|exact Hw].
    destruct (processingPromise w) as [p|]; [destruct (existsb _ _)|]; exact Hw.
  - unfold check. destruct (existsb _ _); cbn [negb]; [|exact Hw].
    destruct (isRunning w); [exact Hw|].
    rewrite (proj1 (proj2 (proj2 (proj2 (stoppedAll_fields _ _))))). cbn [loops].
    pose proof (List.filter_length_le (fun l => negb (Nat.eqb l i)) (loops w)). lia.
Qed.

End WorkerLife.

(** On a running worker with one loop, [stop()] and then the loop
    reaching its condition: the loop returns and [stop()] finishes. *)
Lemma stop_then_check (w : Lifecycle.Worker) (p : nat) :
  Lifecycle.sound w ->
  Lifecycle.isRunning w = true ->
  Lifecycle.loops w = [p] ->
  Lifecycle.processingPromise w = Some p
  /\ Lifecycle.stopping w = []
  /\ Lifecycle.stopping (Lifecycle.stop w) = [p]
  /\ Lifecycle.loops (Lifecycle.stop w) = [p]
  /\ Lifecycle.isRunning (Lifecycle.stop w) = false
  /\ Lifecycle.disconnects (Lifecycle.stop w) = Lifecycle.disconnects w
  /\ Lifecycle.started (Lifecycle.stop w) = Lifecycle.started w
  /\ let w' := Lifecycle.check p (Lifecycle.stop w) in
     Lifecycle.isRunning w' = false
     /\ Lifecycle.loops w' = []
     /\ Lifecycle.stopping w' = []
     /\ Lifecycle.started w' = Lifecycle.started w
     /\ Lifecycle.disconnects w' = S (Lifecycle.disconnects w).
Proof.
  intros (H1 & H2 & H3 & H4 & H5) Hrun Hloops.
  destruct (H1 Hrun) as (q & Hq & Hin). rewrite Hloops in Hin.
  destruct Hin as [<-|[]].
  assert (Hnone : Lifecycle.stopping w = []).
  { destruct (Lifecycle.stopping w) as [|s rest] eqn:E; [reflexivity|].
    exfalso. apply (H5 Hrun p Hq).
    assert (Hs : In s (Lifecycle.loops w)) by (apply H2; left; reflexivity).
    rewrite Hloops in Hs. destruct Hs as [<-|[]]. left. reflexivity. }
  assert (Hstop : Lifecycle.stop w
                  = Lifecycle.mkWorker false (Some p) (Lifecycle.started w) [p] [p]
                      (Lifecycle.disconnects w)
                      (Lifecycle.log w ++ [(info, "Остановка WazzupQueueWorker...")])).
  { unfold Lifecycle.stop. rewrite Hrun. cbn [negb]. rewrite Hq, Hloops.
    cbn [existsb]. rewrite Nat.eqb_refl. cbn [orb Lifecycle.log]. rewrite Hnone.
    reflexivity. }
  rewrite Hstop. cbn [Lifecycle.stopping Lifecycle.loops Lifecycle.isRunning
                      Lifecycle.disconnects Lifecycle.started].
  split; [exact Hq|]. split; [exact Hnone|]. split; [reflexivity|].
  split; [reflexivity|]. split; [reflexivity|]. split; [reflexivity|].
  split; [reflexivity|].
  unfold Lifecycle.check. cbn. rewrite Nat.eqb_refl. cbn. repeat split.
Qed.

(** X21.  One loop at a time, when [start()] is used in order.  In every
    run of [start()], [stop()] and passes of the loops, from a worker as
    the constructor leaves it: a running worker has its current loop among
    the live ones, and a [stop()] that waits, waits for a live loop.  When
    [start()] is only called on a worker that is running or whose loops
    have all returned, there is at most one loop.  [start()] on a running
    worker starts nothing; [stop()] on a worker that is not running does
    nothing.  On a running worker with its one loop, [stop()] clears the
    flag and waits; the loop returns at its next condition, [stop()] then
    disconnects once; and a [start()] after that runs one new loop. *)
Theorem worker_runs_one_loop_when_started_in_order
    (enabled : option bool) (events : list Lifecycle.Event) :
  let w := Lifecycle.run (Lifecycle.new enabled) events in
  (Lifecycle.isRunning (Lifecycle.new enabled) = negb (bool_decide (enabled = Some false)))
  /\ (Lifecycle.isRunning w = true ->
      exists p, Lifecycle.processingPromise w = Some p /\ In p (Lifecycle.loops w))
  /\ (forall p, In p (Lifecycle.stopping w) -> In p (Lifecycle.loops w))
  /\ (Lifecycle.orderly (Lifecycle.new enabled) events ->
      (length (Lifecycle.loops w) <= 1)%nat)
  /\ (Lifecycle.isRunning w = true ->
      Lifecycle.loops (Lifecycle.start w) = Lifecycle.loops w
      /\ Lifecycle.started (Lifecycle.start w) = Lifecycle.started w
      /\ Lifecycle.processingPromise (Lifecycle.start w) = Lifecycle.processingPromise w
      /\ Lifecycle.isRunning (Lifecycle.start w) = true)
  /\ (Lifecycle.isRunning w = false -> Lifecycle.stop w = w)
  /\ (forall p,
        Lifecycle.isRunning w = true ->
        Lifecycle.loops w = [p] ->
        let waiting := Lifecycle.stop w in
        let over := Lifecycle.check p waiting in
        Lifecycle.isRunning waiting = false
        /\ Lifecycle.stopping waiting = [p]
        /\ Lifecycle.disconnects waiting = Lifecycle.disconnects w
        /\ Lifecycle.isRunning over = false
        /\ Lifecycle.loops over = []
        /\ Lifecycle.stopping over = []
        /\ Lifecycle.disconnects over = S (Lifecycle.disconnects w)
        /\ Lifecycle.loops (Lifecycle.start over) = [Lifecycle.started w]
        /\ Lifecycle.isRunning (Lifecycle.start over) = true).
Proof.
  intros w. subst w.
  pose proof (sound_run events _ (sound_new enabled)) as Hsound.
  pose proof Hsound as (H1 & H2 & _).
  split; [destruct enabled as [[]|]; reflexivity|].
  split; [exact H1|]. split; [exact H2|]. split; [|split; [|split]].
  - apply orderly_run. unfold Lifecycle.new. destruct enabled as [[]|]; cbn; lia.
  - intros Hrun. unfold Lifecycle.start. rewrite Hrun. cbn. repeat split.
  - intros Hrun. unfold Lifecycle.stop. rewrite Hrun. reflexivity.
  - intros p Hrun Hloops.
    destruct (stop_then_check _ p Hsound Hrun Hloops)
      as (_ & _ & S1 & S2 & S3 & S4 & S5 & C1 & C2 & C3 & C4 & C5).
    cbv zeta. split_and!; try assumption.
    + unfold Lifecycle.start. rewrite C1. cbn [Lifecycle.loops]. rewrite C2, C4. reflexivity.
    + unfold Lifecycle.start. rewrite C1. reflexivity.
Qed.

(** The worker as the constructor starts it; [stop()], the loop
    reaching its condition, and [start()] again. *)
Lemma worker_runs_one_loop_when_started_in_order_witness :
  let events := [Lifecycle.Stop; Lifecycle.Check 0; Lifecycle.Start; Lifecycle.Start] in
  (length (Lifecycle.loops (Lifecycle.run (Lifecycle.new None) events)) <= 1)%nat.
Proof.
  intros events.
  apply (proj1 (proj2 (proj2 (proj2
           (worker_runs_one_loop_when_started_in_order None events))))).
  cbn. tauto.
Defined.

(** X22.  [start()] during a [stop()] that waits leaves two loops.  On a
    running worker with its one loop, [stop()] followed by [start()]
    before the loop has reached its condition starts a second loop; the
    first loop then finds the flag set again and goes on, so that the two
    loops poll the queue side by side, whatever number of passes they
    make, the [stop()] never finishes and the queue service is not
    disconnected. *)
Theorem start_during_stop_leaves_two_loops
    (enabled : option bool) (events : list Lifecycle.Event) (p : nat)
    (passes : list nat) :
  let w := Lifecycle.run (Lifecycle.new enabled) events in
  Lifecycle.isRunning w = true ->
  Lifecycle.loops w = [p] ->
  let again := Lifecycle.start (Lifecycle.stop w) in
  let later := Lifecycle.run again (map Lifecycle.Check passes) in
  Lifecycle.loops again = [p; Lifecycle.started w]
  /\ p <> Lifecycle.started w
  /\ Lifecycle.isRunning again = true
  /\ Lifecycle.stopping again = [p]
  /\ Lifecycle.disconnects again = Lifecycle.disconnects w
  /\ later = again.
Proof.
  intros w Hrun Hloops again later. subst w.
  pose proof (sound_run events _ (sound_new enabled)) as Hsound.
  destruct (stop_then_check _ p Hsound Hrun Hloops)
    as (_ & _ & S1 & S2 & S3 & S4 & S5 & _).
  assert (Hlt : (p < Lifecycle.started (Lifecycle.run (Lifecycle.new enabled) events))%nat).
  { destruct Hsound as (_ & _ & H3 & _). apply H3. rewrite Hloops. left. reflexivity. }
  assert (Hagain : Lifecycle.loops again
                   = [p; Lifecycle.started (Lifecycle.run (Lifecycle.new enabled) events)]
                   /\ Lifecycle.isRunning again = true
                   /\ Lifecycle.stopping again = [p]
                   /\ Lifecycle.disconnects again
                      = Lifecycle.disconnects (Lifecycle.run (Lifecycle.new enabled) events)).
  { subst again. unfold Lifecycle.start. rewrite S3. cbn. rewrite S1, S2, S4, S5.
    repeat split. }
  destruct Hagain as (A1 & A2 & A3 & A4).
  split; [exact A1|]. split; [lia|]. split; [exact A2|]. split; [exact A3|].
  split; [exact A4|].
  subst later. unfold Lifecycle.run. clear -A2.
  induction passes as [|i passes IH]; [reflexivity|].
  cbn [map fold_left Lifecycle.step].
  assert (Hcheck : Lifecycle.check i again = again).
  { unfold Lifecycle.check. rewrite A2. destruct (negb _); reflexivity. }
  rewrite Hcheck. exact IH.
Qed.

(** The worker as the constructor starts it: [stop()], [start()], and
    passes of both loops. *)
Lemma start_during_stop_leaves_two_loops_witness :
  let again := Lifecycle.start (Lifecycle.stop (Lifecycle.new None)) in
  Lifecycle.loops again = [0%nat; 1%nat]
  /\ Lifecycle.run again (map Lifecycle.Check [0%nat; 1%nat; 0%nat]) = again.
Proof.
  intros again.
  destruct (start_during_stop_leaves_two_loops None [] 0%nat [0%nat; 1%nat; 0%nat]
              eq_refl eq_refl) as (H1 & _ & _ & _ & _ & H6).
  split; [exact H1|exact H6].
Defined.

(** ** The worker and records that do not parse *)

Section CorruptRecords.
Import Queue Worker.

Variable w : WazzupQueueWorker.
Variable token : option string.

Let svc := queueService w.

(** A turn on a record that does not parse: the record is gone, an
    error is logged, nothing is sent. *)
Lemma turn_unparsable t r raw rest :
  main svc (state r) = Unparsable raw :: rest ->
  let r' := settle w token t (poll w r) in
  main svc (state r') = rest
  /\ deadLetters svc (state r') = deadLetters svc (state r)
  /\ inFlight r' = None
  /\ Queue.log (state r')
     = Queue.log (state r) ++ [(error, "Не удалось распарсить сообщение из очереди")]
  /\ forall l, sendOf token l t (poll w r) = [].
Proof.
  intros Hmain r'. subst r'.
  destruct (poll_lists w r) as [Hd Hm]. fold svc in Hd, Hm. rewrite Hmain in Hm.
  destruct Hm as [Hheld Hrest]. cbn [JSON_parse] in Hheld.
  rewrite (settle_idle w token t _ Hheld).
  split; [exact Hrest|]. split; [exact Hd|]. split; [exact Hheld|]. split.
  - unfold poll, dequeue. fold svc. unfold bind, blPop.
    unfold main in Hmain. rewrite Hmain. reflexivity.
  - intros l. unfold sendOf. rewrite Hheld. reflexivity.
Qed.

Lemma run_unparsable raws :
  forall script r rest,
    length script = length raws ->
    main svc (state r) = map Unparsable raws ++ rest ->
    let r' := processQueue w token script r in
    main svc (state r') = rest
    /\ deadLetters svc (state r') = deadLetters svc (state r)
    /\ Queue.log (state r')
       = Queue.log (state r)
         ++ replicate (length raws) (error, "Не удалось распарсить сообщение из очереди")
    /\ forall l, sends w token l script r = [].
Proof.
  induction raws as [|raw raws IH]; intros script r rest Hlen Hmain.
  - destruct script; [|discriminate]. cbn. rewrite app_nil_r. repeat split. exact Hmain.
  - destruct script as [|t script]; [discriminate|]. injection Hlen as Hlen.
    cbn [map app] in Hmain.
    destruct (turn_unparsable t r raw _ Hmain) as (H1 & H2 & _ & H4 & H5).
    cbv zeta in *. cbn [processQueue sends].
    destruct (IH script _ rest Hlen H1) as (K1 & K2 & K3 & K4).
    split; [exact K1|]. split; [congruence|]. split.
    + rewrite K3, H4, <- app_assoc. reflexivity.
    + intros l. rewrite H5, K4. reflexivity.
Qed.

End CorruptRecords.

(** X23.  Records that do not parse are consumed without a trace in the
    lists.  When the main list starts with records that [JSON.parse]
    refuses, the worker spends one turn on each: the record leaves the
    main list, [dequeue] logs one error, nothing is sent, nothing is
    retried and nothing reaches the dead letters; the records behind them
    are left in their order. *)
Theorem worker_discards_records_that_do_not_parse
    (w : Worker.WazzupQueueWorker) (token : option string)
    (raws : list string) (rest : list Queue.element)
    (script : list Worker.Turn) (r : Worker.Running) :
  let svc := Worker.queueService w in
  length script = length raws ->
  Queue.main svc (Worker.state r) = map Queue.Unparsable raws ++ rest ->
  let r' := Worker.processQueue w token script r in
  Queue.main svc (Worker.state r') = rest
  /\ Queue.deadLetters svc (Worker.state r') = Queue.deadLetters svc (Worker.state r)
  /\ Queue.log (Worker.state r')
     = Queue.log (Worker.state r)
       ++ replicate (length raws) (error, "Не удалось распарсить сообщение из очереди")
  /\ (forall l, Worker.sends w token l script r = [])
  /\ fst (Queue.getDeadLetters svc 0 (Worker.state r'))
     = fst (Queue.getDeadLetters svc 0 (Worker.state r)).
Proof.
  intros svc Hlen Hmain r'.
  destruct (run_unparsable w token raws script r rest Hlen Hmain) as (H1 & H2 & H3 & H4).
  fold svc r' in H1, H2, H3.
  split; [exact H1|]. split; [exact H2|]. split; [exact H3|]. split; [exact H4|].
  change (omap Queue.JSON_parse (Queue.lRangeTo (Queue.deadLetters svc (Worker.state r')) (0 - 1))
          = omap Queue.JSON_parse (Queue.lRangeTo (Queue.deadLetters svc (Worker.state r)) (0 - 1))).
  rewrite H2. reflexivity.
Qed.

(** Two records that do not parse in front of the sample reply. *)
Lemma worker_discards_records_that_do_not_parse_witness :
  let st := Sample.waiting [Queue.Unparsable "{"; Queue.Unparsable "oops";
                            Queue.JSON_stringify (Sample.attempted 1)] in
  Queue.main Sample.service
    (Worker.state
       (Worker.processQueue Sample.worker Sample.token
          [Sample.refused 2000; Sample.refused 2001] (Worker.mkRunning st None)))
  = [Queue.JSON_stringify (Sample.attempted 1)].
Proof.
  intros st.
  apply (worker_discards_records_that_do_not_parse Sample.worker Sample.token
           ["{"; "oops"] [Queue.JSON_stringify (Sample.attempted 1)]
           [Sample.refused 2000; Sample.refused 2001] (Worker.mkRunning st None)
           eq_refl eq_refl).
Defined.

(** ** The route: who can give a stop command *)




